(** * Package [log] of traefik (pkg/log/log.go): a shallow embedding

    The package keeps three variables ([mainLogger], [logFilePath],
    [logFile]), binds loggers into [context.Context] values, opens, closes
    and rotates the log file, and starts a goroutine that uploads the log
    file on every tick of a ten-minute ticker.

    Every function of the package is embedded as a state-passing function
    over a [World]: the package variables together with the parts of the Go
    runtime, of [os], of logrus and of the storage client that the package
    touches.  A Go [panic] is the [Panic] result; a Go [error] value is an
    [option error], [None] standing for [nil].  The [Logger] interface and
    the field options have their nil values, on which a call panics. *)

From stdpp Require Import gmap strings list fin_maps relations.

Local Open Scope string_scope.
Local Open Scope list_scope.

(** ** Results and the state monad *)

Inductive Result (A : Type) : Type :=
| Ok (a : A)
| Panic (msg : string).
Arguments Ok {A} a.
Arguments Panic {A} msg.

(** ** logrus: levels, fields, loggers, output *)

Inductive Level : Type :=
| PanicLevel | FatalLevel | ErrorLevel | WarnLevel
| InfoLevel | DebugLevel | TraceLevel.

#[global] Instance Level_eq_dec : EqDecision Level.
Proof. solve_decision. Defined.

(** [logrus.Fields] restricted to the string values [Str] stores. *)
Abbreviation Fields := (gmap string string).

(** A value of the [Logger] interface.  It is the nil interface value
    ([SetLogger] accepts it), or a logger: the logging engine it writes
    through ([0] is [logrus.StandardLogger()]) and the structured fields it
    carries (a bare [*logrus.Logger] carries none, a [*logrus.Entry]
    carries its [Data]). *)
Inductive Logger : Type :=
| nilLogger
| mkLogger (e : nat) (d : Fields).

#[global] Instance Logger_eq_dec : EqDecision Logger.
Proof. solve_decision. Defined.



Definition StandardLogger : Logger := mkLogger 0 ∅.

Inductive Formatter : Type :=
| TextFormatter
| JSONFormatter
| OtherFormatter (id : nat).

(** [*os.File]: an index into the table of files the process has opened. *)
Definition File : Type := nat.

Inductive Writer : Type :=
| Stdout
| FileWriter (f : File)
| OtherWriter (id : nat).

(** One call of a method of a [Logger]. *)
Record LogCall : Type := mkLogCall {
  lc_logger : Logger;
  lc_level : Level;
  lc_msg : string
}.

(** ** os: files, environment, console *)

Inductive OpenMode : Type :=
| O_RDONLY
| O_RDWR_CREATE_APPEND.

Record FileState : Type := mkFileState {
  f_name : string;
  f_mode : OpenMode;
  f_open : bool
}.

Inductive error : Type :=
| PathError (op path : string)
| ErrClosed
| OtherError (msg : string)
| Errorf (prefix : string) (wrapped : error).

(** What [os.OpenFile] returns: a file and a nil error, or a nil file and
    an error. *)
Inductive OpenResult : Type :=
| Opened (f : File)
| OpenFailed (err : error).

Definition result_file (r : OpenResult) : option File :=
  match r with
  | Opened f => Some f
  | OpenFailed _ => None
  end.

Inductive IoEvent : Type :=
| IoOpen (name : string) (mode : OpenMode) (res : option File)
| IoClose (f : File).

(** ** The upload goroutine *)

(** An unbuffered channel as its receiver sees it: a receive can proceed
    when the channel is closed or a sender is waiting on it. *)
Record Chan : Type := mkChan {
  ch_closed : bool;
  ch_senders : nat
}.

Definition make_chan : Chan := {| ch_closed := false; ch_senders := 0 |}.

Definition recv_ready (c : Chan) : bool :=
  ch_closed c || bool_decide (0 < ch_senders c).

Definition recv (c : Chan) : Chan :=
  if ch_closed c then c
  else {| ch_closed := false; ch_senders := pred (ch_senders c) |}.

(** The goroutine started by [UploadLogs] with what its closure captured:
    [bucket], [s3path], the ticker and the [quit] channel; the files whose
    [Close] it has deferred; whether it has returned. *)
Record Task : Type := mkTask {
  t_bucket : string;
  t_key : string;
  t_period_minutes : nat;
  t_ticker_stopped : bool;
  t_quit : Chan;
  t_deferred : list File;
  t_returned : bool
}.

(** One call of [uploader.Upload] on the storage client. *)
Record Upload : Type := mkUpload {
  up_bucket : string;
  up_key : string;
  up_body : File
}.

(** ** The world *)

Record World : Type := mkWorld {
  (* package variables *)
  mainLogger : Logger;
  logFilePath : string;
  logFile : option File;
  (* logrus standard logger *)
  std_out : list Writer;
  std_formatter : Formatter;
  std_level : Level;
  log_calls : list LogCall;
  (* os *)
  files : list FileState;
  fs_openable : string → OpenMode → bool;
  environ : gmap string string;
  os_hostname : option string;
  console : list string;
  io_trace : list IoEvent;
  (* storage client and goroutines *)
  session_ok : bool;
  uploads : list Upload;
  tasks : list Task
}.

Definition set_mainLogger (x : Logger) (w : World) : World :=
  mkWorld x (logFilePath w) (logFile w) (std_out w)
    (std_formatter w) (std_level w)
    (log_calls w) (files w) (fs_openable w) (environ w) (os_hostname w)
    (console w) (io_trace w) (session_ok w) (uploads w) (tasks w).

Definition set_logFilePath (x : string) (w : World) : World :=
  mkWorld (mainLogger w) x (logFile w) (std_out w)
    (std_formatter w) (std_level w)
    (log_calls w) (files w) (fs_openable w) (environ w) (os_hostname w)
    (console w) (io_trace w) (session_ok w) (uploads w) (tasks w).

Definition set_logFile (x : option File) (w : World) : World :=
  mkWorld (mainLogger w) (logFilePath w) x (std_out w)
    (std_formatter w) (std_level w)
    (log_calls w) (files w) (fs_openable w) (environ w) (os_hostname w)
    (console w) (io_trace w) (session_ok w) (uploads w) (tasks w).

Definition set_std_out (x : list Writer) (w : World) : World :=
  mkWorld (mainLogger w) (logFilePath w) (logFile w) x
    (std_formatter w) (std_level w)
    (log_calls w) (files w) (fs_openable w) (environ w) (os_hostname w)
    (console w) (io_trace w) (session_ok w) (uploads w) (tasks w).

Definition set_std_formatter (x : Formatter) (w : World) : World :=
  mkWorld (mainLogger w) (logFilePath w) (logFile w) (std_out w) x (std_level w)
    (log_calls w) (files w) (fs_openable w) (environ w) (os_hostname w)
    (console w) (io_trace w) (session_ok w) (uploads w) (tasks w).

Definition set_std_level (x : Level) (w : World) : World :=
  mkWorld (mainLogger w) (logFilePath w) (logFile w) (std_out w)
    (std_formatter w) x
    (log_calls w) (files w) (fs_openable w) (environ w) (os_hostname w)
    (console w) (io_trace w) (session_ok w) (uploads w) (tasks w).

Definition set_log_calls (x : list LogCall) (w : World) : World :=
  mkWorld (mainLogger w) (logFilePath w) (logFile w) (std_out w)
    (std_formatter w) (std_level w)
    x (files w) (fs_openable w) (environ w) (os_hostname w)
    (console w) (io_trace w) (session_ok w) (uploads w) (tasks w).

Definition set_files (x : list FileState) (w : World) : World :=
  mkWorld (mainLogger w) (logFilePath w) (logFile w) (std_out w)
    (std_formatter w) (std_level w)
    (log_calls w) x (fs_openable w) (environ w) (os_hostname w)
    (console w) (io_trace w) (session_ok w) (uploads w) (tasks w).

Definition set_console (x : list string) (w : World) : World :=
  mkWorld (mainLogger w) (logFilePath w) (logFile w) (std_out w)
    (std_formatter w) (std_level w)
    (log_calls w) (files w) (fs_openable w) (environ w) (os_hostname w)
    x (io_trace w) (session_ok w) (uploads w) (tasks w).

Definition set_io_trace (x : list IoEvent) (w : World) : World :=
  mkWorld (mainLogger w) (logFilePath w) (logFile w) (std_out w)
    (std_formatter w) (std_level w)
    (log_calls w) (files w) (fs_openable w) (environ w) (os_hostname w)
    (console w) x (session_ok w) (uploads w) (tasks w).

Definition set_uploads (x : list Upload) (w : World) : World :=
  mkWorld (mainLogger w) (logFilePath w) (logFile w) (std_out w)
    (std_formatter w) (std_level w)
    (log_calls w) (files w) (fs_openable w) (environ w) (os_hostname w)
    (console w) (io_trace w) (session_ok w) x (tasks w).

Definition set_tasks (x : list Task) (w : World) : World :=
  mkWorld (mainLogger w) (logFilePath w) (logFile w) (std_out w)
    (std_formatter w) (std_level w)
    (log_calls w) (files w) (fs_openable w) (environ w) (os_hostname w)
    (console w) (io_trace w) (session_ok w) (uploads w) x.

(** What the process does not control: the file system, the environment,
    the host name, whether a storage session can be created. *)
Definition set_outside (o : string → OpenMode → bool) (e : gmap string string)
    (h : option string) (s : bool) (w : World) : World :=
  mkWorld (mainLogger w) (logFilePath w) (logFile w) (std_out w)
    (std_formatter w) (std_level w)
    (log_calls w) (files w) o e h
    (console w) (io_trace w) s (uploads w) (tasks w).

(** The state monad with panics. *)
Definition M (A : Type) : Type := World → Result (A * World).

Definition ret {A} (a : A) : M A := fun w => Ok (a, w).

Definition bind {A B} (m : M A) (k : A → M B) : M B :=
  fun w => match m w with
           | Ok (a, w') => k a w'
           | Panic msg => Panic msg
           end.

Definition get : M World := fun w => Ok (w, w).
Definition modify (f : World → World) : M unit := fun w => Ok (tt, f w).
Definition panic {A} (msg : string) : M A := fun _ => Panic msg.

Notation "'let*' x := m 'in' k" := (bind m (fun x => k))
  (at level 10, x name, m at level 100, k at level 200).
Notation "m >>> k" := (bind m (fun _ => k))
  (at level 100, k at level 200, right associativity).

(** What the Go runtime panics with when a method is called on a nil
    interface value or a nil function is called. *)
Definition nil_dereference : string :=
  "runtime error: invalid memory address or nil pointer dereference".

(** Modelled from the spec: [WithFields] of the logging engine (logrus, an
    external collaborator).  It returns a new handle on the same engine
    whose fields are the base's fields merged with [fields], the new ones
    overriding on key collision; the base is not modified.  Called on the
    nil [Logger] it panics, as every method call on a nil interface. *)
Definition WithFields (l : Logger) (fields : Fields) : M Logger :=
  match l with
  | nilLogger => panic nil_dereference
  | mkLogger e d => ret (mkLogger e (fields ∪ d))
  end.

(** ** context: keys, values, contexts *)

(** A context key: [loggerKey], the only value of the package's unexported
    [contextKey] type, or a key of some other type. *)
Inductive Key : Type :=
| loggerKey
| foreignKey (id : nat).

#[global] Instance Key_eq_dec : EqDecision Key.
Proof. solve_decision. Defined.

(** A value of type [any] stored in a context. *)
Inductive Any : Type :=
| AnyNil
| AnyLogger (l : Logger)
| AnyOther (v : string).

(** A non-nil [context.Context]: the roots, a value binding on top of a
    parent, or a cancellation or deadline context, which leaves [Value] to
    its parent.  The nil context is [None] of [option Context]. *)
Inductive Context : Type :=
| backgroundCtx
| todoCtx
| valueCtx (parent : Context) (key : Key) (val : Any)
| cancelCtx (parent : Context).

Fixpoint Value (c : Context) (key : Key) : Any :=
  match c with
  | backgroundCtx | todoCtx => AnyNil
  | valueCtx parent k v => if decide (k = key) then v else Value parent key
  | cancelCtx parent => Value parent key
  end.

Definition context_Background : option Context := Some backgroundCtx.

Definition context_WithValue (parent : option Context) (key : Key) (val : Any)
    : M Context :=
  match parent with
  | None => panic "cannot create context from nil parent"
  | Some c => ret (valueCtx c key val)
  end.

(** The type assertion [v.(Logger)].  A nil [Logger] stored as [any] is
    the nil [any], for which the assertion fails. *)
Definition assert_Logger (v : Any) : option Logger :=
  match v with
  | AnyLogger nilLogger => None
  | AnyLogger l => Some l
  | _ => None
  end.

(** ** The package: initialisation and setters *)

Definition init (o : string → OpenMode → bool) (e : gmap string string)
    (h : option string) (s : bool) : World :=
  {| mainLogger := StandardLogger;
     logFilePath := "";
     logFile := None;
     std_out := [Stdout];
     std_formatter := TextFormatter;
     std_level := InfoLevel;
     log_calls := [];
     files := [];
     fs_openable := o;
     environ := e;
     os_hostname := h;
     console := [];
     io_trace := [];
     session_ok := s;
     uploads := [];
     tasks := [] |}.

Definition SetLogger (l : Logger) : M unit := modify (set_mainLogger l).

Definition logrus_SetOutput (out : list Writer) : M unit :=
  modify (set_std_out out).

Definition SetOutput (out : Writer) : M unit :=
  let mw := [Stdout; out] in
  logrus_SetOutput mw.

Definition SetFormatter (formatter : Formatter) : M unit :=
  modify (set_std_formatter formatter).

Definition SetLevel (level : Level) : M unit := modify (set_std_level level).

Definition GetLevel : M Level := fun w => Ok (std_level w, w).

(** ** Fields and context binding *)

(** A field option, of type [func(logrus.Fields)]: the nil function, or a
    function that writes to the map it is given, as the closures of [Str]
    do. *)
Inductive FieldOpt : Type :=
| nilFunc
| func (f : Fields → Fields).

Definition Str (key value : string) : FieldOpt :=
  func (fun fields => <[key := value]> fields).

(** The call [opt(fields)]. *)
Definition call_opt (opt : FieldOpt) (fields : Fields) : M Fields :=
  match opt with
  | nilFunc => panic nil_dereference
  | func f => ret (f fields)
  end.

(** The loop [for _, opt := range opts { opt(fields) }]. *)
Fixpoint apply_opts (opts : list FieldOpt) (fields : Fields) : M Fields :=
  match opts with
  | [] => ret fields
  | opt :: rest =>
      let* fields' := call_opt opt fields in
      apply_opts rest fields'
  end.

Definition FromContext (ctx : option Context) : M Logger :=
  match ctx with
  | None => panic "nil context"
  | Some c =>
      let* w := get in
      match assert_Logger (Value c loggerKey) with
      | Some logger => ret logger
      | None => ret (mainLogger w)
      end
  end.

Definition WithoutContext : M Logger := fun w => Ok (mainLogger w, w).

Definition With (ctx : option Context) (opts : list FieldOpt) : M Context :=
  let* logger := FromContext ctx in
  let* fields := apply_opts opts ∅ in
  let* logger := WithFields logger fields in
  context_WithValue ctx loggerKey (AnyLogger logger).

(** ** os and fmt *)

Definition fmt_Println (line : string) : M unit :=
  fun w => Ok (tt, set_console (console w ++ [line]) w).

Definition os_OpenFile (name : string) (mode : OpenMode) : M OpenResult :=
  fun w =>
    if fs_openable w name mode then
      let f := length (files w) in
      Ok (Opened f,
          set_io_trace (io_trace w ++ [IoOpen name mode (Some f)])
            (set_files (files w ++ [mkFileState name mode true]) w))
    else
      Ok (OpenFailed (PathError "open" name),
          set_io_trace (io_trace w ++ [IoOpen name mode None]) w).

Definition os_Open (name : string) : M OpenResult :=
  os_OpenFile name O_RDONLY.

Definition os_LookupEnv (key : string) : M (option string) :=
  fun w => Ok (environ w !! key, w).

(** [os.Hostname]: the name, or an error. *)
Definition os_Hostname : M (option string) :=
  fun w => Ok (os_hostname w, w).

Definition close_state (s : FileState) : FileState :=
  mkFileState (f_name s) (f_mode s) false.

Definition is_open (w : World) (f : File) : bool :=
  match files w !! f with
  | Some s => f_open s
  | None => false
  end.

Definition file_Close (f : File) : M (option error) :=
  fun w =>
    let w' := set_io_trace (io_trace w ++ [IoClose f]) w in
    if is_open w f then
      Ok (None, set_files (alter close_state f (files w)) w')
    else Ok (Some ErrClosed, w').

Definition error_text (e : error) : string :=
  match e with
  | PathError op path => op +:+ " " +:+ path
  | ErrClosed => "file already closed"
  | OtherError msg => msg
  | Errorf prefix _ => prefix
  end.

(** ** The log file *)

(** [logger.Debug(msg)]; on the nil [Logger] the call panics. *)
Definition Debug (logger : Logger) (msg : string) : M unit :=
  match logger with
  | nilLogger => panic nil_dereference
  | mkLogger _ _ =>
      fun w =>
        Ok (tt, set_log_calls
                  (log_calls w ++ [mkLogCall logger DebugLevel msg]) w)
  end.

Definition OpenFile (path : string) : M (option error) :=
  modify (set_logFilePath path) >>>
  let* w := get in
  let* r := os_OpenFile (logFilePath w) O_RDWR_CREATE_APPEND in
  modify (set_logFile (result_file r)) >>>
  match r with
  | OpenFailed err => ret (Some err)
  | Opened f => SetOutput (FileWriter f) >>> ret None
  end.

Definition CloseFile : M (option error) :=
  logrus_SetOutput [Stdout] >>>
  let* w := get in
  match logFile w with
  | Some f => file_Close f
  | None => ret None
  end.

Definition RotateFile : M (option error) :=
  let* logger := FromContext context_Background in
  let* w := get in
  if bool_decide (logFile w = None) && bool_decide (logFilePath w = "") then
    Debug logger "Traefik log is not writing to a file, ignoring rotate request" >>>
    ret None
  else
    let deferred := logFile w in
    let* err := OpenFile (logFilePath w) in
    let result :=
      match err with
      | Some e => Some (Errorf "error opening log file: " e)
      | None => None
      end in
    match deferred with
    | Some f => file_Close f >>> ret result
    | None => ret result
    end.

(** ** The upload goroutine *)

Definition session_Must_NewSession : M unit :=
  fun w => if session_ok w then Ok (tt, w) else Panic "session.Must".

Definition go (t : Task) : M unit :=
  fun w => Ok (tt, set_tasks (tasks w ++ [t]) w).

Definition not_uploading : string :=
  "VOLT_ENVIRONMENT is not set or the log file path is not set. Not uploading logs".

Definition UploadLogs (path : string) : M unit :=
  modify (set_logFilePath path) >>>
  let* env := os_LookupEnv "VOLT_ENVIRONMENT" in
  let* w := get in
  match env with
  | Some environment =>
      if bool_decide (logFilePath w = "") then fmt_Println not_uploading
      else
        let bucket := "voltage-" +:+ environment +:+ "-system" in
        let* h := os_Hostname in
        let hostname := match h with Some n => n | None => "unknown" end in
        let s3path := "traefik-logs/" +:+ hostname +:+ "/traefik.log" in
        session_Must_NewSession >>>
        go {| t_bucket := bucket; t_key := s3path;
              t_period_minutes := 10; t_ticker_stopped := false;
              t_quit := make_chan; t_deferred := []; t_returned := false |}
  | None => fmt_Println not_uploading
  end.

Definition defer_close (f : File) (t : Task) : Task :=
  mkTask (t_bucket t) (t_key t) (t_period_minutes t) (t_ticker_stopped t)
    (t_quit t) (f :: t_deferred t) (t_returned t).

Definition stop_and_return (t : Task) : Task :=
  mkTask (t_bucket t) (t_key t) (t_period_minutes t) true
    (recv (t_quit t)) [] true.

(** The [case <-ticker.C] branch of goroutine [i]; [upload_err] is what
    [uploader.Upload] answers. *)
Definition tick (i : nat) (upload_err : option error) : M unit :=
  let* w := get in
  match tasks w !! i with
  | None => ret tt
  | Some t =>
      let* r := os_Open (logFilePath w) in
      match r with
      | OpenFailed err => fmt_Println (error_text err)
      | Opened file =>
          modify (fun w => set_tasks (alter (defer_close file) i (tasks w)) w) >>>
          modify (fun w => set_uploads
                    (uploads w ++ [mkUpload (t_bucket t) (t_key t) file]) w) >>>
          match upload_err with
          | Some err => fmt_Println (error_text err)
          | None => ret tt
          end
      end
  end.

Fixpoint run_deferred (fs : list File) : M unit :=
  match fs with
  | [] => ret tt
  | f :: rest => file_Close f >>> run_deferred rest
  end.

(** The [case <-quit] branch of goroutine [i]: the ticker is stopped and
    the function returns, which runs the deferred [Close] calls. *)
Definition quit (i : nat) : M unit :=
  let* w := get in
  match tasks w !! i with
  | None => ret tt
  | Some t =>
      modify (fun w => set_tasks (alter stop_and_return i (tasks w)) w) >>>
      run_deferred (t_deferred t)
  end.

(** ** Executions *)

(** A call of the package by the rest of the program. *)
Inductive Call : Type :=
| CallSetLogger (l : Logger)
| CallSetOutput (out : Writer)
| CallSetFormatter (formatter : Formatter)
| CallSetLevel (level : Level)
| CallGetLevel
| CallWith (ctx : option Context) (opts : list FieldOpt)
| CallFromContext (ctx : option Context)
| CallWithoutContext
| CallOpenFile (path : string)
| CallCloseFile
| CallRotateFile
| CallUploadLogs (path : string).

Definition run_call (c : Call) : M unit :=
  match c with
  | CallSetLogger l => SetLogger l
  | CallSetOutput out => SetOutput out
  | CallSetFormatter formatter => SetFormatter formatter
  | CallSetLevel level => SetLevel level
  | CallGetLevel => GetLevel >>> ret tt
  | CallWith ctx opts => With ctx opts >>> ret tt
  | CallFromContext ctx => FromContext ctx >>> ret tt
  | CallWithoutContext => WithoutContext >>> ret tt
  | CallOpenFile path => OpenFile path >>> ret tt
  | CallCloseFile => CloseFile >>> ret tt
  | CallRotateFile => RotateFile >>> ret tt
  | CallUploadLogs path => UploadLogs path
  end.

(** A step of one of the goroutines started by [UploadLogs]: the [select]
    takes a branch whose channel is ready. *)
Inductive go_step : World → World → Prop :=
| go_tick i t e w w' :
    tasks w !! i = Some t →
    t_returned t = false →
    t_ticker_stopped t = false →
    tick i e w = Ok (tt, w') →
    go_step w w'
| go_quit i t w w' :
    tasks w !! i = Some t →
    t_returned t = false →
    recv_ready (t_quit t) = true →
    quit i w = Ok (tt, w') →
    go_step w w'.

(** A step of the whole process: a goroutine step, a call of the package
    that returns, or a change of what the process does not control.
    [UploadLogs] has no result and stores [quit] in no variable, so the
    rest of the program holds no reference to the channel: no step sends on
    it or closes it. *)
Inductive step : World → World → Prop :=
| step_go w w' : go_step w w' → step w w'
| step_call c w w' : run_call c w = Ok (tt, w') → step w w'
| step_outside o e h s w : step w (set_outside o e h s w).

(** Steps with no call of the package in between. *)
Inductive bg_step : World → World → Prop :=
| bg_go w w' : go_step w w' → bg_step w w'
| bg_outside o e h s w : bg_step w (set_outside o e h s w).

(** Goroutine [i] exists, has not returned, its ticker has not been
    stopped and nothing can be received from its [quit] channel. *)
Definition task_live (w : World) (i : nat) : Prop :=
  ∃ t, tasks w !! i = Some t ∧ t_returned t = false ∧
       t_ticker_stopped t = false ∧ recv_ready (t_quit t) = false.

(** Some binding under [loggerKey] lies on the chain of [c]. *)
Fixpoint binds_loggerKey (c : Context) : bool :=
  match c with
  | backgroundCtx | todoCtx => false
  | valueCtx parent k _ => bool_decide (k = loggerKey) || binds_loggerKey parent
  | cancelCtx parent => binds_loggerKey parent
  end.


Definition str_opts (kvs : list (string * string)) : list FieldOpt :=
  map (fun kv => Str kv.1 kv.2) kvs.

(** The map after the assignments [fields[k] = v] for the pairs of [kvs],
    in order. *)
Definition set_fields (kvs : list (string * string)) (fields : Fields) : Fields :=
  foldl (fun fs kv => <[kv.1 := kv.2]> fs) fields kvs.

(** ** Further notions used by the properties *)

(** [extends c c']: [c'] is [c] under further layers that bind nothing
    under [loggerKey], as [context.WithCancel], [context.WithTimeout] or a
    [context.WithValue] of another package make them. *)
Inductive extends (c : Context) : Context → Prop :=
| extends_refl : extends c c
| extends_cancel c' : extends c c' → extends c (cancelCtx c')
| extends_value c' id v :
    extends c c' → extends c (valueCtx c' (foreignKey id) v).

(** A sequence of calls of the package, one after the other. *)
Fixpoint run_calls (cs : list Call) : M unit :=
  match cs with
  | [] => ret tt
  | c :: rest => run_call c >>> run_calls rest
  end.

Definition sets_level (c : Call) : bool :=
  match c with
  | CallSetLevel _ => true
  | _ => false
  end.

Definition sets_logger (c : Call) : bool :=
  match c with
  | CallSetLogger _ => true
  | _ => false
  end.

(** The states a process can be in: those reached from the state after
    [init] by steps of the process. *)
Definition reachable (w : World) : Prop :=
  ∃ o e h s, rtc step (init o e h s) w.

(** What ties the table of files to the rest of the state: nothing can be
    received from a [quit] channel, a stored handle is one the process
    opened, and the file of every upload is open and is not the log file. *)
Definition handles_inv (w : World) : Prop :=
  (∀ i t, tasks w !! i = Some t → recv_ready (t_quit t) = false) ∧
  (∀ h, logFile w = Some h → h < length (files w)) ∧
  (∀ u, u ∈ uploads w →
        is_open w (up_body u) = true ∧ logFile w ≠ Some (up_body u)).

(** * Properties *)

(** ** Context binding *)

Section ContextBinding.

Variable w : World.

Lemma Value_unbound c :
  binds_loggerKey c = false → Value c loggerKey = AnyNil.
Proof.
  induction c as [ | | parent IH k v | parent IH]; simpl; intros Hb; auto.
  apply orb_false_iff in Hb as [Hk Hp].
  apply bool_decide_eq_false in Hk.
  case_decide; [contradiction | auto].
Qed.


Lemma FromContext_total c :
  ∃ l, FromContext (Some c) w = Ok (l, w).
Proof.
  unfold FromContext, bind, get, ret.
  destruct (assert_Logger (Value c loggerKey)); eauto.
Qed.


(** The option loop: it returns when no option is nil, panics when one is,
    and never touches the state. *)
Lemma apply_opts_ok opts :
  Forall (fun opt => opt ≠ nilFunc) opts →
  ∀ fields, ∃ fields', apply_opts opts fields w = Ok (fields', w).
Proof.
  induction 1 as [ | opt opts Hopt _ IH]; intros fields; simpl.
  - unfold ret. eauto.
  - destruct opt as [ | f]; [contradiction | ].
    unfold bind, call_opt, ret. apply IH.
Qed.

Lemma apply_opts_nil opts :
  nilFunc ∈ opts →
  ∀ fields, apply_opts opts fields w = Panic nil_dereference.
Proof.
  induction opts as [ | opt opts IH]; intros Hin fields.
  - by apply not_elem_of_nil in Hin.
  - simpl. unfold bind, call_opt. destruct opt as [ | f]; [reflexivity | ].
    unfold ret. apply IH.
    apply elem_of_cons in Hin as [Hin | Hin]; [discriminate | exact Hin].
Qed.

Lemma apply_opts_cases opts fields :
  (Forall (fun opt => opt ≠ nilFunc) opts ∧
   ∃ fields', apply_opts opts fields w = Ok (fields', w)) ∨
  (nilFunc ∈ opts ∧ apply_opts opts fields w = Panic nil_dereference).
Proof.
  assert (Hdec : Forall (fun opt => opt ≠ nilFunc) opts ∨ nilFunc ∈ opts).
  { induction opts as [ | opt opts [IH | IH]].
    - left. constructor.
    - destruct opt as [ | f].
      + right. apply elem_of_cons. by left.
      + left. constructor; [discriminate | exact IH].
    - right. apply elem_of_cons. by right. }
  destruct Hdec as [Hall | Hin].
  - left. split; [exact Hall | by apply apply_opts_ok].
  - right. split; [exact Hin | by apply apply_opts_nil].
Qed.

Lemma apply_opts_world opts fields fields' w' :
  apply_opts opts fields w = Ok (fields', w') → w' = w.
Proof.
  destruct (apply_opts_cases opts fields) as [[_ [f Hf]] | [_ Hp]];
    congruence.
Qed.

Lemma With_unfold c opts e d fields :
  FromContext (Some c) w = Ok (mkLogger e d, w) →
  apply_opts opts ∅ w = Ok (fields, w) →
  With (Some c) opts w =
    Ok (valueCtx c loggerKey (AnyLogger (mkLogger e (fields ∪ d))), w).
Proof.
  intros Hl Hf. unfold With, bind. rewrite Hl, Hf. reflexivity.
Qed.

(** [With] returns exactly when the logger of the context is not nil and
    no option is nil. *)
Lemma With_cases c opts :
  (∃ e d fields,
      FromContext (Some c) w = Ok (mkLogger e d, w) ∧
      Forall (fun opt => opt ≠ nilFunc) opts ∧
      apply_opts opts ∅ w = Ok (fields, w) ∧
      With (Some c) opts w =
        Ok (valueCtx c loggerKey (AnyLogger (mkLogger e (fields ∪ d))), w)) ∨
  (With (Some c) opts w = Panic nil_dereference ∧
   (nilFunc ∈ opts ∨
    (FromContext (Some c) w = Ok (nilLogger, w) ∧
     Forall (fun opt => opt ≠ nilFunc) opts))).
Proof.
  destruct (FromContext_total c) as [l Hl].
  destruct (apply_opts_cases opts ∅) as [[Hall [fields Hf]] | [Hin Hp]].
  - destruct l as [ | e d].
    + right. split; [ | right; auto].
      unfold With, bind. rewrite Hl, Hf. reflexivity.
    + left. exists e, d, fields. repeat split; auto. by apply With_unfold.
  - right. split; [ | left; exact Hin].
    unfold With, bind. rewrite Hl, Hp. reflexivity.
Qed.

Lemma With_world ctx opts c' w' :
  With ctx opts w = Ok (c', w') → w' = w.
Proof.
  destruct ctx as [c | ]; [ | discriminate].
  destruct (With_cases c opts) as [(e & d & fields & _ & _ & _ & Hw) | [Hp _]];
    congruence.
Qed.

End ContextBinding.

Lemma run_call_With_world ctx opts (w w' : World) :
  (With ctx opts >>> ret tt) w = Ok (tt, w') → w' = w.
Proof.
  unfold bind, ret.
  destruct (With ctx opts w) as [[c' w1] | msg] eqn:HW; [ | discriminate].
  intros [= <-]. by eapply With_world.
Qed.

(** ** Field merging *)

Section FieldMerging.

Lemma apply_str_opts (kvs : list (string * string)) : ∀ fields w,
  apply_opts (str_opts kvs) fields w = Ok (set_fields kvs fields, w).
Proof.
  induction kvs as [ | [k v] kvs IH]; intros fields w; [reflexivity | ].
  simpl. unfold bind, call_opt, Str, ret. apply IH.
Qed.




End FieldMerging.

(** C2.  For the nil context, [FromContext] panics (with "nil context") in
    every state; it never returns a logger, in particular not the
    process-wide default. *)
Theorem FromContext_nil_panics (w : World) :
  FromContext None w = Panic "nil context" ∧
  ∀ l w', FromContext None w ≠ Ok (l, w').
Proof.
  split; [reflexivity | ]. intros l w' H. discriminate H.
Qed.

(** C3.  For a non-nil context with no binding under [loggerKey] anywhere
    on its chain, [FromContext] returns what [WithoutContext] returns: the
    process-wide [mainLogger], the state untouched. *)
Theorem FromContext_fallback (w : World) (c : Context) :
  binds_loggerKey c = false →
  FromContext (Some c) w = WithoutContext w ∧
  FromContext (Some c) w = Ok (mainLogger w, w).
Proof.
  intros Hb. unfold FromContext, WithoutContext, bind, get, ret.
  rewrite (Value_unbound c Hb). simpl. auto.
Qed.

Lemma FromContext_fallback_witness :
  let w := init (fun _ _ => true) ∅ None true in
  let c := valueCtx (cancelCtx backgroundCtx) (foreignKey 7) (AnyOther "req-1") in
  binds_loggerKey c = false ∧
  FromContext (Some c) w = WithoutContext w ∧
  FromContext (Some c) w = Ok (mainLogger w, w).
Proof.
  intros w c. split; [reflexivity | ].
  apply (FromContext_fallback w c). reflexivity.
Defined.







(** ** The log file *)

Ltac unfold_pkg :=
  unfold RotateFile, OpenFile, CloseFile, UploadLogs, SetOutput,
    logrus_SetOutput, SetLogger, SetFormatter, SetLevel, GetLevel, With, FromContext,
    WithoutContext, context_WithValue, context_Background, Debug,
    WithFields, call_opt,
    fmt_Println, os_Open, os_OpenFile, os_LookupEnv, os_Hostname,
    file_Close, session_Must_NewSession, go, bind, ret, get, modify, panic
    in *.

Section LogFile.

Variable w : World.

(** What [OpenFile] does, by the answer of the file system. *)
Lemma OpenFile_failed path :
  fs_openable w path O_RDWR_CREATE_APPEND = false →
  OpenFile path w =
    Ok (Some (PathError "open" path),
        set_logFile None
          (set_io_trace (io_trace w ++ [IoOpen path O_RDWR_CREATE_APPEND None])
             (set_logFilePath path w))).
Proof. intros Hf. unfold_pkg. simpl. rewrite Hf. reflexivity. Qed.

Lemma OpenFile_opened path :
  fs_openable w path O_RDWR_CREATE_APPEND = true →
  OpenFile path w =
    Ok (None,
        set_std_out [Stdout; FileWriter (length (files w))]
          (set_logFile (Some (length (files w)))
             (set_io_trace
                (io_trace w ++
                   [IoOpen path O_RDWR_CREATE_APPEND (Some (length (files w)))])
                (set_files
                   (files w ++ [mkFileState path O_RDWR_CREATE_APPEND true])
                   (set_logFilePath path w))))).
Proof. intros Hf. unfold_pkg. simpl. rewrite Hf. reflexivity. Qed.

Lemma is_open_lt f : is_open w f = true → f < length (files w).
Proof.
  unfold is_open. destruct (files w !! f) eqn:Hf; [ | discriminate].
  intros _. by eapply lookup_lt_Some.
Qed.

Lemma OpenFile_total path : ∃ r w', OpenFile path w = Ok (r, w').
Proof.
  destruct (fs_openable w path O_RDWR_CREATE_APPEND) eqn:Hf.
  - rewrite OpenFile_opened by assumption. eauto.
  - rewrite OpenFile_failed by assumption. eauto.
Qed.

(** [OpenFile] closes no file. *)
Lemma OpenFile_keeps_open path r w' f :
  OpenFile path w = Ok (r, w') → is_open w f = true → is_open w' f = true.
Proof.
  intros Ho Hf. pose proof (is_open_lt f Hf) as Hlt.
  destruct (fs_openable w path O_RDWR_CREATE_APPEND) eqn:Hfs.
  - rewrite OpenFile_opened in Ho by assumption. inversion Ho; subst; clear Ho.
    unfold is_open in *. simpl. by rewrite lookup_app_l.
  - rewrite OpenFile_failed in Ho by assumption. inversion Ho; subst; clear Ho.
    exact Hf.
Qed.

End LogFile.

Lemma file_Close_closes (w : World) (f : File) :
  is_open w f = true →
  ∃ w', file_Close f w = Ok (None, w') ∧ is_open w' f = false.
Proof.
  intros Hf. unfold file_Close. rewrite Hf. eexists. split; [reflexivity | ].
  unfold is_open. simpl. rewrite list_lookup_alter_eq.
  match goal with |- context [close_state <$> ?o] => destruct o end;
    reflexivity.
Qed.

(** C5.  When the file system refuses to open [p], [OpenFile p] returns an
    error and leaves the package state half updated: [logFilePath] is [p],
    and [logFile] is nil; the call has created no file handle (the table of
    files is as before) and has not touched the output of the logger. *)
Theorem OpenFile_failure_state (w : World) (p : string) :
  fs_openable w p O_RDWR_CREATE_APPEND = false →
  ∃ err w',
    OpenFile p w = Ok (Some err, w') ∧
    logFilePath w' = p ∧
    logFile w' = None ∧
    files w' = files w ∧
    std_out w' = std_out w.
Proof.
  intros Hf. rewrite (OpenFile_failed w p Hf).
  eexists _, _. split; [reflexivity | ]. simpl. auto.
Qed.

Lemma OpenFile_failure_state_witness :
  let w := set_logFilePath "/var/log/old.log"
             (init (fun _ _ => false) ∅ None true) in
  fs_openable w "/nonexistent/traefik.log" O_RDWR_CREATE_APPEND = false ∧
  ∃ err w',
    OpenFile "/nonexistent/traefik.log" w = Ok (Some err, w') ∧
    logFilePath w' = "/nonexistent/traefik.log" ∧
    logFile w' = None ∧
    files w' = files w ∧
    std_out w' = std_out w.
Proof.
  intros w. split; [reflexivity | ].
  apply (OpenFile_failure_state w "/nonexistent/traefik.log"). reflexivity.
Defined.




(** C10.  When a handle [h] is open and stored in [logFile], [OpenFile p]
    replaces [logFile] by the new file, or by nil when the open fails,
    and closes nothing: [h] and every other open file stay open, and the
    only file operation it performs is the open.  [logFile] no longer
    names [h].  [RotateFile], from the same state, does close [h]. *)
Theorem OpenFile_leaves_previous_handle_open (w : World) (p : string) (h : File) :
  logFile w = Some h →
  is_open w h = true →
  (∃ r w',
      OpenFile p w = Ok (r, w') ∧
      (if fs_openable w p O_RDWR_CREATE_APPEND
       then r = None ∧ logFile w' = Some (length (files w)) ∧
            is_open w' (length (files w)) = true
       else r ≠ None ∧ logFile w' = None) ∧
      logFile w' ≠ Some h ∧
      is_open w' h = true ∧
      (∀ f, is_open w f = true → is_open w' f = true) ∧
      io_trace w' =
        io_trace w ++ [IoOpen p O_RDWR_CREATE_APPEND (logFile w')]) ∧
  (∃ r w', RotateFile w = Ok (r, w') ∧ is_open w' h = false).
Proof.
  intros Hh Hopen. pose proof (is_open_lt w h Hopen) as Hlt. split.
  - destruct (OpenFile_total w p) as (r & w' & Ho).
    exists r, w'. split; [exact Ho | ].
    assert (Hkeep : ∀ f, is_open w f = true → is_open w' f = true)
      by (intros f; eapply OpenFile_keeps_open; eauto).
    destruct (fs_openable w p O_RDWR_CREATE_APPEND) eqn:Hfs.
    + rewrite OpenFile_opened in Ho by assumption. inversion Ho; subst; clear Ho.
      simpl. repeat split; auto.
      * unfold is_open. simpl.
        rewrite lookup_app_r by lia. by rewrite Nat.sub_diag.
      * intros Heq. inversion Heq. lia.
    + rewrite OpenFile_failed in Ho by assumption. inversion Ho; subst; clear Ho.
      simpl. repeat split; auto; discriminate.
  - destruct (OpenFile_total w (logFilePath w)) as (r & w1 & Ho).
    pose proof (OpenFile_keeps_open w _ _ _ h Ho Hopen) as Hopen1.
    destruct (file_Close_closes w1 h Hopen1) as (w2 & Hc & Hclosed).
    exists (match r with
            | Some e => Some (Errorf "error opening log file: " e)
            | None => None
            end), w2.
    split; [ | exact Hclosed].
    unfold RotateFile, bind, get. simpl. rewrite Hh. simpl.
    rewrite Ho, Hc. reflexivity.
Qed.

Lemma OpenFile_leaves_previous_handle_open_witness :
  let w := set_logFile (Some 0)
             (set_files [mkFileState "/var/log/traefik.log" O_RDWR_CREATE_APPEND true]
                (set_logFilePath "/var/log/traefik.log"
                   (init (fun _ _ => true) ∅ None true))) in
  logFile w = Some 0 ∧ is_open w 0 = true ∧
  (∃ r w',
      OpenFile "/var/log/other.log" w = Ok (r, w') ∧
      (if fs_openable w "/var/log/other.log" O_RDWR_CREATE_APPEND
       then r = None ∧ logFile w' = Some (length (files w)) ∧
            is_open w' (length (files w)) = true
       else r ≠ None ∧ logFile w' = None) ∧
      logFile w' ≠ Some 0 ∧
      is_open w' 0 = true ∧
      (∀ f, is_open w f = true → is_open w' f = true) ∧
      io_trace w' =
        io_trace w ++ [IoOpen "/var/log/other.log" O_RDWR_CREATE_APPEND (logFile w')]) ∧
  (∃ r w', RotateFile w = Ok (r, w') ∧ is_open w' 0 = false).
Proof.
  intros w. split; [reflexivity | ]. split; [reflexivity | ].
  apply (OpenFile_leaves_previous_handle_open w "/var/log/other.log" 0);
    reflexivity.
Defined.

(** ** The upload goroutine *)

Section Upload.

Lemma UploadLogs_not_started w path :
  environ w !! "VOLT_ENVIRONMENT" = None ∨ path = "" →
  UploadLogs path w =
    Ok (tt, set_console (console w ++ [not_uploading]) (set_logFilePath path w)).
Proof.
  intros Hcond. unfold_pkg. simpl.
  destruct (environ w !! "VOLT_ENVIRONMENT") as [environment | ] eqn:Henv;
    [ | reflexivity].
  destruct Hcond as [Habs | ->]; [discriminate | reflexivity].
Qed.

Lemma UploadLogs_started w path environment :
  environ w !! "VOLT_ENVIRONMENT" = Some environment →
  path ≠ "" →
  session_ok w = true →
  UploadLogs path w =
    Ok (tt,
        set_tasks
          (tasks w ++
             [mkTask ("voltage-" +:+ environment +:+ "-system")
                ("traefik-logs/" +:+ default "unknown" (os_hostname w)
                   +:+ "/traefik.log")
                10 false make_chan [] false])
          (set_logFilePath path w)).
Proof.
  intros Henv Hpath Hs. unfold_pkg. simpl. rewrite Henv.
  rewrite bool_decide_eq_false_2 by assumption.
  change (session_ok (set_logFilePath path w)) with (session_ok w).
  rewrite Hs. simpl. destruct (os_hostname w); reflexivity.
Qed.

Lemma UploadLogs_no_session w path environment :
  environ w !! "VOLT_ENVIRONMENT" = Some environment →
  path ≠ "" →
  session_ok w = false →
  UploadLogs path w = Panic "session.Must".
Proof.
  intros Henv Hpath Hs. unfold_pkg. simpl. rewrite Henv.
  rewrite bool_decide_eq_false_2 by assumption.
  change (session_ok (set_logFilePath path w)) with (session_ok w).
  rewrite Hs. reflexivity.
Qed.

(** Every return of [UploadLogs] is one of the two above. *)
Lemma UploadLogs_cases w path w' :
  UploadLogs path w = Ok (tt, w') →
  (w' = set_console (console w ++ [not_uploading]) (set_logFilePath path w)) ∨
  (∃ environment,
      environ w !! "VOLT_ENVIRONMENT" = Some environment ∧ path ≠ "" ∧
      w' = set_tasks
             (tasks w ++
                [mkTask ("voltage-" +:+ environment +:+ "-system")
                   ("traefik-logs/" +:+ default "unknown" (os_hostname w)
                      +:+ "/traefik.log")
                   10 false make_chan [] false])
             (set_logFilePath path w)).
Proof.
  intros Hu.
  destruct (environ w !! "VOLT_ENVIRONMENT") as [environment | ] eqn:Henv.
  - destruct (decide (path = "")) as [Hp | Hp].
    + rewrite UploadLogs_not_started in Hu by auto. left. congruence.
    + destruct (session_ok w) eqn:Hs.
      * rewrite (UploadLogs_started w path environment) in Hu by assumption.
        right. exists environment. repeat split; auto. congruence.
      * rewrite (UploadLogs_no_session w path environment) in Hu by assumption.
        discriminate.
  - rewrite UploadLogs_not_started in Hu by auto. left. congruence.
Qed.

Lemma run_deferred_tasks fs : ∀ w w',
  run_deferred fs w = Ok (tt, w') →
  tasks w' = tasks w ∧ uploads w' = uploads w.
Proof.
  induction fs as [ | f fs IH]; intros w w' Hr; simpl in Hr.
  - unfold ret in Hr. by inversion Hr.
  - unfold bind, file_Close in Hr.
    destruct (is_open w f); apply IH in Hr; simpl in Hr; exact Hr.
Qed.

(** A tick leaves the control state of every goroutine as it was: it can
    only add a deferred [Close] to goroutine [j]. *)
Lemma tick_tasks j e w w' :
  tick j e w = Ok (tt, w') →
  tasks w' = tasks w ∨ ∃ f, tasks w' = alter (defer_close f) j (tasks w).
Proof.
  unfold tick, bind, get. simpl.
  destruct (tasks w !! j) as [t | ]; [ | unfold ret; intros H; inversion H; auto].
  unfold_pkg. destruct (fs_openable w (logFilePath w) O_RDONLY).
  - destruct e; intros H; inversion H; subst; clear H; simpl; eauto.
  - intros H; inversion H; subst; clear H; simpl; auto.
Qed.

Lemma quit_tasks j w w' :
  quit j w = Ok (tt, w') →
  tasks w' = tasks w ∨ tasks w' = alter stop_and_return j (tasks w).
Proof.
  unfold quit, bind, get. simpl.
  destruct (tasks w !! j) as [t | ]; [ | unfold ret; intros H; inversion H; auto].
  unfold modify. intros H. apply run_deferred_tasks in H as [H _].
  simpl in H. auto.
Qed.

(** A call of the package leaves the goroutines alone; [UploadLogs] may
    add one. *)
Lemma run_call_tasks c w w' :
  run_call c w = Ok (tt, w') →
  tasks w' = tasks w ∨ ∃ t, tasks w' = tasks w ++ [t].
Proof.
  destruct c; simpl; intros H;
    try (apply UploadLogs_cases in H as [-> | (environment & _ & _ & ->)];
         simpl; eauto; fail);
    left; try (apply run_call_With_world in H; subst);
    unfold_pkg; simpl in *;
    repeat (first [case_match | progress simplify_eq]; simpl in * );
    reflexivity.
Qed.

Lemma task_live_go_step w w' i :
  go_step w w' → task_live w i → task_live w' i.
Proof.
  intros Hstep (t & Hi & Hret & Hstop & Hquit). unfold task_live.
  destruct Hstep as [j tj e w w' Hj _ _ Ht | j tj w w' Hj _ Hready Hq].
  - apply tick_tasks in Ht as [Ht | [f Ht]]; rewrite Ht.
    + exists t. auto.
    + destruct (decide (j = i)) as [-> | Hne].
      * exists (defer_close f t). rewrite list_lookup_alter_eq, Hi. auto.
      * exists t. rewrite list_lookup_alter_ne by assumption. auto.
  - apply quit_tasks in Hq as [Hq | Hq]; rewrite Hq.
    + exists t. auto.
    + destruct (decide (j = i)) as [-> | Hne].
      * rewrite Hi in Hj. inversion Hj; subst. congruence.
      * exists t. rewrite list_lookup_alter_ne by assumption. auto.
Qed.

Lemma task_live_step w w' i :
  step w w' → task_live w i → task_live w' i.
Proof.
  intros Hstep Hlive.
  destruct Hstep as [w w' Hgo | c w w' Hcall | o e h s w].
  - by eapply task_live_go_step.
  - destruct Hlive as (t & Hi & Hrest). unfold task_live.
    apply run_call_tasks in Hcall as [Hc | [t' Hc]]; rewrite Hc.
    + exists t. auto.
    + exists t. split; [ | exact Hrest]. by apply lookup_app_l_Some.
  - exact Hlive.
Qed.

Lemma task_live_steps w w' i :
  rtc step w w' → task_live w i → task_live w' i.
Proof.
  induction 1 as [ | w w1 w2 Hstep _ IH]; [auto | ].
  intros Hlive. apply IH. by eapply task_live_step.
Qed.

(** Without goroutines nothing runs in the background. *)
Lemma bg_steps_idle w w' :
  rtc bg_step w w' → tasks w = [] →
  tasks w' = [] ∧ uploads w' = uploads w.
Proof.
  induction 1 as [ | w w1 w2 Hstep _ IH]; [auto | ].
  intros Hnone.
  destruct Hstep as [w w1 Hgo | o e h s w].
  - destruct Hgo as [j tj e w w1 Hj _ _ _ | j tj w w1 Hj _ _ _];
      rewrite Hnone in Hj; discriminate.
  - apply IH. exact Hnone.
Qed.

(** The [case <-quit] branch, were it ever taken, stops the ticker and
    ends the goroutine. *)
Lemma quit_stops_task j t w :
  tasks w !! j = Some t →
  ∃ w' t', quit j w = Ok (tt, w') ∧ tasks w' !! j = Some t' ∧
           t_ticker_stopped t' = true ∧ t_returned t' = true.
Proof.
  intros Hj. unfold quit, bind, get. simpl. rewrite Hj. unfold modify.
  assert (Htot : ∀ fs w0, ∃ w1, run_deferred fs w0 = Ok (tt, w1)).
  { induction fs as [ | f fs IH]; intros w0; simpl; [unfold ret; eauto | ].
    unfold bind, file_Close. destruct (is_open w0 f); apply IH. }
  destruct (Htot (t_deferred t)
              (set_tasks (alter stop_and_return j (tasks w)) w)) as [w1 Hw1].
  exists w1, (stop_and_return t). split; [exact Hw1 | ].
  apply run_deferred_tasks in Hw1 as [Hw1 _]. rewrite Hw1. simpl.
  rewrite list_lookup_alter_eq, Hj. auto.
Qed.

End Upload.

Lemma tick_uploads (j : nat) (e : option error) (t : Task) (w w' : World) :
  tasks w !! j = Some t →
  tick j e w = Ok (tt, w') →
  uploads w' = uploads w ∨
  ∃ f, uploads w' = uploads w ++ [mkUpload (t_bucket t) (t_key t) f].
Proof.
  intros Hj. unfold tick, bind, get. simpl. rewrite Hj.
  unfold_pkg. destruct (fs_openable w (logFilePath w) O_RDONLY).
  - destruct e; intros H; inversion H; subst; clear H; simpl; eauto.
  - intros H; inversion H; subst; clear H; simpl; auto.
Qed.

(** C4.  When [VOLT_ENVIRONMENT] is not set, or the path is empty,
    [UploadLogs] returns normally (no panic; it has no error result) after
    printing one diagnostic line on the console and storing the path; it
    starts no goroutine and makes no upload.  If no upload goroutine was
    running before, then however long the process is observed afterwards
    without further calls of the package, no upload is ever attempted. *)
Theorem UploadLogs_noop (w : World) (path : string) :
  environ w !! "VOLT_ENVIRONMENT" = None ∨ path = "" →
  ∃ w',
    UploadLogs path w = Ok (tt, w') ∧
    console w' = console w ++ [not_uploading] ∧
    logFilePath w' = path ∧
    tasks w' = tasks w ∧
    uploads w' = uploads w ∧
    (tasks w = [] →
     ∀ w'', rtc bg_step w' w'' → tasks w'' = [] ∧ uploads w'' = uploads w).
Proof.
  intros Hcond. eexists. split; [by apply UploadLogs_not_started | ].
  simpl. do 4 (split; [reflexivity | ]).
  intros Hnone w'' Hsteps.
  apply bg_steps_idle in Hsteps; [exact Hsteps | exact Hnone].
Qed.

Lemma UploadLogs_noop_witness :
  let w := init (fun _ _ => true) ∅ (Some "edge-1") true in
  (environ w !! "VOLT_ENVIRONMENT" = None ∨ "/var/log/traefik.log" = "") ∧
  ∃ w',
    UploadLogs "/var/log/traefik.log" w = Ok (tt, w') ∧
    console w' = console w ++ [not_uploading] ∧
    logFilePath w' = "/var/log/traefik.log" ∧
    tasks w' = tasks w ∧
    uploads w' = uploads w ∧
    (tasks w = [] →
     ∀ w'', rtc bg_step w' w'' → tasks w'' = [] ∧ uploads w'' = uploads w).
Proof.
  intros w.
  assert (H : environ w !! "VOLT_ENVIRONMENT" = None ∨ "/var/log/traefik.log" = "")
    by (left; reflexivity).
  split; [exact H | ].
  exact (UploadLogs_noop w "/var/log/traefik.log" H).
Defined.

(** C7.  Whenever [UploadLogs] starts the goroutine, [VOLT_ENVIRONMENT] is
    set, to some [environment]; the goroutine's bucket is
    ["voltage-" + environment + "-system"] and its key is
    ["traefik-logs/" + hostname + "/traefik.log"], with the host name of the
    process or ["unknown"] when the lookup fails.  Neither depends on the
    path or on anything else, and each upload a tick of this goroutine makes
    goes to this bucket and key. *)
Theorem UploadLogs_destination (w : World) (path : string) (w' : World) :
  UploadLogs path w = Ok (tt, w') →
  tasks w' ≠ tasks w →
  ∃ environment t,
    environ w !! "VOLT_ENVIRONMENT" = Some environment ∧
    tasks w' = tasks w ++ [t] ∧
    t_bucket t = "voltage-" +:+ environment +:+ "-system" ∧
    t_key t =
      "traefik-logs/" +:+ default "unknown" (os_hostname w) +:+ "/traefik.log" ∧
    ∀ e w2,
      tick (length (tasks w)) e w' = Ok (tt, w2) →
      uploads w2 = uploads w' ∨
      ∃ f, uploads w2 = uploads w' ++
             [mkUpload ("voltage-" +:+ environment +:+ "-system")
                ("traefik-logs/" +:+ default "unknown" (os_hostname w)
                   +:+ "/traefik.log") f].
Proof.
  intros Hu Hnew.
  apply UploadLogs_cases in Hu as [-> | (environment & Henv & _ & ->)].
  - simpl in Hnew. contradiction.
  - eexists environment, _. split; [exact Henv | ].
    split; [reflexivity | ]. split; [reflexivity | ]. split; [reflexivity | ].
    intros e w2 Ht.
    eapply tick_uploads in Ht;
      [ | cbn [tasks set_tasks]; apply list_lookup_middle; reflexivity].
    exact Ht.
Qed.

Lemma UploadLogs_destination_witness :
  let w := init (fun _ _ => true) {[ "VOLT_ENVIRONMENT" := "prod" ]} None true in
  let w' := set_tasks
              [mkTask "voltage-prod-system" "traefik-logs/unknown/traefik.log"
                 10 false make_chan [] false]
              (set_logFilePath "/var/log/traefik.log" w) in
  UploadLogs "/var/log/traefik.log" w = Ok (tt, w') ∧
  tasks w' ≠ tasks w ∧
  ∃ environment t,
    environ w !! "VOLT_ENVIRONMENT" = Some environment ∧
    tasks w' = tasks w ++ [t] ∧
    t_bucket t = "voltage-" +:+ environment +:+ "-system" ∧
    t_key t =
      "traefik-logs/" +:+ default "unknown" (os_hostname w) +:+ "/traefik.log" ∧
    ∀ e w2,
      tick (length (tasks w)) e w' = Ok (tt, w2) →
      uploads w2 = uploads w' ∨
      ∃ f, uploads w2 = uploads w' ++
             [mkUpload ("voltage-" +:+ environment +:+ "-system")
                ("traefik-logs/" +:+ default "unknown" (os_hostname w)
                   +:+ "/traefik.log") f].
Proof.
  intros w w'.
  assert (Hu : UploadLogs "/var/log/traefik.log" w = Ok (tt, w')) by reflexivity.
  assert (Hnew : tasks w' ≠ tasks w) by (simpl; discriminate).
  split; [exact Hu | ]. split; [exact Hnew | ].
  exact (UploadLogs_destination w "/var/log/traefik.log" w' Hu Hnew).
Defined.

(** C1.  The goroutine cannot be cancelled.  [UploadLogs] returns nothing,
    and the [quit] channel it makes is known to the goroutine alone: once
    the goroutine is started, then after any sequence of package calls,
    goroutine steps and changes of the outside world it has still not
    returned, its ticker has still not been stopped (so ticks keep firing)
    and its [quit] channel still has nothing to receive. *)
Theorem UploadLogs_task_never_cancelled (w : World) (path : string) (w' : World) :
  UploadLogs path w = Ok (tt, w') →
  tasks w' ≠ tasks w →
  ∀ w'', rtc step w' w'' → task_live w'' (length (tasks w)).
Proof.
  intros Hu Hnew w'' Hsteps.
  apply (task_live_steps w' w''); [exact Hsteps | ].
  apply UploadLogs_cases in Hu as [-> | (environment & _ & _ & ->)].
  - simpl in Hnew. contradiction.
  - eexists. split; [cbn [tasks set_tasks]; apply list_lookup_middle; reflexivity | ].
    simpl. auto.
Qed.

Lemma UploadLogs_task_never_cancelled_witness :
  let w := init (fun _ _ => true) {[ "VOLT_ENVIRONMENT" := "prod" ]}
             (Some "edge-1") true in
  let w' := set_tasks
              [mkTask "voltage-prod-system" "traefik-logs/edge-1/traefik.log"
                 10 false make_chan [] false]
              (set_logFilePath "/var/log/traefik.log" w) in
  let w'' := set_outside (fun _ _ => false) ∅ None false w' in
  UploadLogs "/var/log/traefik.log" w = Ok (tt, w') ∧
  tasks w' ≠ tasks w ∧
  rtc step w' w'' ∧
  task_live w'' (length (tasks w)).
Proof.
  intros w w' w''.
  assert (Hu : UploadLogs "/var/log/traefik.log" w = Ok (tt, w')) by reflexivity.
  assert (Hnew : tasks w' ≠ tasks w) by (simpl; discriminate).
  assert (Hsteps : rtc step w' w'') by (apply rtc_once, step_outside).
  split; [exact Hu | ]. split; [exact Hnew | ]. split; [exact Hsteps | ].
  exact (UploadLogs_task_never_cancelled w "/var/log/traefik.log" w' Hu Hnew w'' Hsteps).
Defined.


(** * Further properties of the package *)

(** ** Contexts and fields *)

(** X1.  [With] on the nil context panics with the message of
    [FromContext], whatever the options: no context is built and the panic
    of [context.WithValue] for a nil parent is never reached. *)
Theorem With_nil_panics (w : World) (opts : list FieldOpt) :
  With None opts w = Panic "nil context" ∧
  With None opts w ≠ Panic "cannot create context from nil parent".
Proof. split; [reflexivity | discriminate]. Qed.




(** X3.  The logger of a context is inherited by every context derived
    from it through cancellation layers and values under other keys:
    [FromContext] gives the same result for both. *)
Theorem FromContext_extends (w : World) (c c' : Context) :
  extends c c' →
  FromContext (Some c') w = FromContext (Some c) w.
Proof.
  intros Hext.
  assert (HV : Value c' loggerKey = Value c loggerKey).
  { induction Hext as [ | c' _ IH | c' id v _ IH]; simpl; auto. }
  unfold FromContext. rewrite HV. reflexivity.
Qed.

Lemma FromContext_extends_witness :
  let w := init (fun _ _ => true) ∅ None true in
  let c := valueCtx backgroundCtx loggerKey
             (AnyLogger (mkLogger 0 {[ "route" := "api" ]})) in
  let c' := cancelCtx (valueCtx (cancelCtx c) (foreignKey 3) (AnyOther "trace")) in
  extends c c' ∧
  FromContext (Some c') w = FromContext (Some c) w.
Proof.
  intros w c c'.
  assert (H : extends c c') by (repeat constructor).
  split; [exact H | exact (FromContext_extends w c c' H)].
Defined.



Lemma set_fields_perm (kvs kvs' : list (string * string)) :
  kvs ≡ₚ kvs' →
  NoDup kvs.*1 →
  ∀ fields, set_fields kvs fields = set_fields kvs' fields.
Proof.
  induction 1 as [ | [k v] l l' Hp IH | [k1 v1] [k2 v2] l | l l' l'' Hp1 IH1 Hp2 IH2];
    intros Hnd fields.
  - reflexivity.
  - apply NoDup_cons in Hnd as [_ Hnd].
    unfold set_fields in *. simpl. apply IH. exact Hnd.
  - apply NoDup_cons in Hnd as [Hne _].
    assert (k1 ≠ k2) by (intros ->; apply Hne; simpl; left).
    unfold set_fields. simpl. f_equal. by apply insert_insert_ne.
  - rewrite IH1 by assumption. apply IH2.
    assert (Hk : l.*1 ≡ₚ l'.*1) by (by apply fmap_Permutation).
    by rewrite <- Hk.
Qed.

(** X5.  The order of [Str] options with pairwise distinct keys does not
    matter: [With] builds the same context from any permutation of them. *)
Theorem With_order_irrelevant
    (w : World) (ctx : option Context) (kvs kvs' : list (string * string)) :
  NoDup kvs.*1 →
  kvs ≡ₚ kvs' →
  With ctx (str_opts kvs) w = With ctx (str_opts kvs') w.
Proof.
  intros Hnd Hp. unfold With, bind.
  destruct (FromContext ctx w) as [[l w1] | msg]; [ | reflexivity].
  rewrite !apply_str_opts.
  rewrite (set_fields_perm kvs kvs' Hp Hnd). reflexivity.
Qed.

Lemma With_order_irrelevant_witness :
  let w := init (fun _ _ => true) ∅ None true in
  let kvs := [("route", "api"); ("host", "h1"); ("id", "42")] in
  let kvs' := [("id", "42"); ("route", "api"); ("host", "h1")] in
  NoDup kvs.*1 ∧ kvs ≡ₚ kvs' ∧
  With context_Background (str_opts kvs) w =
    With context_Background (str_opts kvs') w.
Proof.
  intros w kvs kvs'.
  assert (Hnd : NoDup kvs.*1) by (eapply bool_decide_unpack; vm_compute; exact I).
  assert (Hp : kvs ≡ₚ kvs').
  { unfold kvs, kvs'.
    apply (Permutation_cons_app [("id", "42")] [("host", "h1")] ("route", "api")).
    apply (Permutation_cons_app [("id", "42")] [] ("host", "h1")). reflexivity. }
  split; [exact Hnd | ]. split; [exact Hp | ].
  exact (With_order_irrelevant w context_Background kvs kvs' Hnd Hp).
Defined.

(** ** Closing and rotating the log file *)





(** [RotateFile] outside its do-nothing case: [OpenFile] on the stored
    path, then the deferred [Close] of the handle stored before. *)
Lemma RotateFile_active (w : World) :
  ¬ (logFile w = None ∧ logFilePath w = "") →
  RotateFile w =
    match OpenFile (logFilePath w) w with
    | Ok (err, w1) =>
        let result :=
          match err with
          | Some e => Some (Errorf "error opening log file: " e)
          | None => None
          end in
        match logFile w with
        | Some f =>
            match file_Close f w1 with
            | Ok (_, w2) => Ok (result, w2)
            | Panic msg => Panic msg
            end
        | None => Ok (result, w1)
        end
    | Panic msg => Panic msg
    end.
Proof.
  intros Hact. unfold RotateFile, bind, get. simpl.
  assert (Hg : bool_decide (logFile w = None) && bool_decide (logFilePath w = "")
               = false).
  { apply andb_false_iff.
    destruct (decide (logFile w = None)) as [Hn | Hn].
    - right. apply bool_decide_eq_false_2. intros Hp. apply Hact. auto.
    - left. by apply bool_decide_eq_false_2. }
  rewrite Hg.
  destruct (OpenFile (logFilePath w) w) as [[err w1] | msg]; [ | reflexivity].
  destruct (logFile w); reflexivity.
Qed.

Lemma alter_close_not_open (w : World) (f : File) :
  is_open w f = false → alter close_state f (files w) = files w.
Proof.
  unfold is_open. intros Hc. apply list_eq. intros i.
  destruct (decide (f = i)) as [<- | Hne].
  - rewrite list_lookup_alter_eq. revert Hc.
    match goal with |- context [close_state <$> ?x] =>
      change (files w !! f) with x; destruct x as [[n m b] | ]
    end; [ | reflexivity].
    simpl. intros ->. reflexivity.
  - by rewrite list_lookup_alter_ne.
Qed.

(** The deferred [Close] of [RotateFile], whatever it answers. *)
Lemma file_Close_world (w : World) (f : File) :
  ∃ r w',
    file_Close f w = Ok (r, w') ∧
    files w' = alter close_state f (files w) ∧
    io_trace w' = io_trace w ++ [IoClose f] ∧
    logFilePath w' = logFilePath w ∧ logFile w' = logFile w ∧
    std_out w' = std_out w.
Proof.
  unfold file_Close. destruct (is_open w f) eqn:Ho.
  - eexists _, _. split; [reflexivity | ]. simpl. auto.
  - eexists _, _. split; [reflexivity | ]. simpl.
    rewrite alter_close_not_open by assumption. auto.
Qed.

Lemma RotateFile_opened (w : World) :
  ¬ (logFile w = None ∧ logFilePath w = "") →
  fs_openable w (logFilePath w) O_RDWR_CREATE_APPEND = true →
  ∃ w',
    RotateFile w = Ok (None, w') ∧
    logFilePath w' = logFilePath w ∧
    logFile w' = Some (length (files w)) ∧
    std_out w' = [Stdout; FileWriter (length (files w))] ∧
    files w' =
      (let opened :=
         files w ++ [mkFileState (logFilePath w) O_RDWR_CREATE_APPEND true] in
       match logFile w with
       | Some h => alter close_state h opened
       | None => opened
       end) ∧
    io_trace w' =
      io_trace w ++
        IoOpen (logFilePath w) O_RDWR_CREATE_APPEND (Some (length (files w))) ::
        match logFile w with
        | Some h => [IoClose h]
        | None => []
        end.
Proof.
  intros Hact Hfs. rewrite (RotateFile_active w Hact).
  rewrite (OpenFile_opened w _ Hfs).
  destruct (logFile w) as [h | ] eqn:Hh.
  - match goal with |- context [file_Close h ?w1] =>
      destruct (file_Close_world w1 h) as (r & w2 & Hc & Hf & Ht & Hp & Hl & Ho)
    end.
    rewrite Hc. exists w2. split; [reflexivity | ].
    rewrite Hf, Ht, Hp, Hl, Ho. simpl.
    rewrite <- app_assoc. simpl. auto.
  - eexists. split; [reflexivity | ]. simpl. auto.
Qed.

Lemma RotateFile_failed (w : World) :
  ¬ (logFile w = None ∧ logFilePath w = "") →
  fs_openable w (logFilePath w) O_RDWR_CREATE_APPEND = false →
  ∃ w',
    RotateFile w =
      Ok (Some (Errorf "error opening log file: "
                  (PathError "open" (logFilePath w))), w') ∧
    logFilePath w' = logFilePath w ∧
    logFile w' = None ∧
    std_out w' = std_out w ∧
    files w' =
      match logFile w with
      | Some h => alter close_state h (files w)
      | None => files w
      end.
Proof.
  intros Hact Hfs. rewrite (RotateFile_active w Hact).
  rewrite (OpenFile_failed w _ Hfs).
  destruct (logFile w) as [h | ] eqn:Hh.
  - match goal with |- context [file_Close h ?w1] =>
      destruct (file_Close_world w1 h) as (r & w2 & Hc & Hf & Ht & Hp & Hl & Ho)
    end.
    rewrite Hc. exists w2. split; [reflexivity | ].
    rewrite Hf, Hp, Hl, Ho. simpl. auto.
  - eexists. split; [reflexivity | ]. simpl. auto.
Qed.

(** X8.  Rotation.  When a path or a handle is stored, the stored handle
    (if any) is one the process really opened, and the stored path can be
    opened, [RotateFile] returns nil; afterwards [logFile] is a new handle,
    open on the stored path, the logger writes to standard output and to
    that handle, the handle stored before is closed and every other file is
    as it was. *)
Theorem RotateFile_reopens (w : World) :
  ¬ (logFile w = None ∧ logFilePath w = "") →
  (∀ h, logFile w = Some h → h < length (files w)) →
  fs_openable w (logFilePath w) O_RDWR_CREATE_APPEND = true →
  ∃ w',
    RotateFile w = Ok (None, w') ∧
    logFilePath w' = logFilePath w ∧
    logFile w' = Some (length (files w)) ∧
    files w' !! length (files w) =
      Some (mkFileState (logFilePath w) O_RDWR_CREATE_APPEND true) ∧
    std_out w' = [Stdout; FileWriter (length (files w))] ∧
    (∀ h, logFile w = Some h → is_open w' h = false) ∧
    (∀ g, g < length (files w) → logFile w ≠ Some g →
          is_open w' g = is_open w g).
Proof.
  intros Hact Hwf Hfs.
  destruct (RotateFile_opened w Hact Hfs) as (w' & Hr & Hp & Hl & Ho & Hf & _).
  exists w'. do 3 (split; [assumption | ]).
  assert (Hnew : (files w ++
                    [mkFileState (logFilePath w) O_RDWR_CREATE_APPEND true])
                   !! length (files w)
                 = Some (mkFileState (logFilePath w) O_RDWR_CREATE_APPEND true))
    by (apply list_lookup_middle; reflexivity).
  split; [ | split; [exact Ho | split]].
  - rewrite Hf. destruct (logFile w) as [h | ] eqn:Hh; simpl; [ | exact Hnew].
    specialize (Hwf h eq_refl).
    rewrite list_lookup_alter_ne by lia. exact Hnew.
  - intros h Hh. unfold is_open. rewrite Hf, Hh. simpl.
    rewrite list_lookup_alter_eq.
    match goal with |- context [close_state <$> ?o] => destruct o end;
      reflexivity.
  - intros g Hg Hne. unfold is_open. rewrite Hf.
    destruct (logFile w) as [h | ] eqn:Hh; simpl.
    + rewrite list_lookup_alter_ne by (intros ->; by apply Hne).
      by rewrite lookup_app_l.
    + by rewrite lookup_app_l.
Qed.

Lemma RotateFile_reopens_witness :
  let w := set_logFile (Some 0)
             (set_files [mkFileState "/var/log/traefik.log" O_RDWR_CREATE_APPEND true]
                (set_logFilePath "/var/log/traefik.log"
                   (init (fun _ _ => true) ∅ None true))) in
  ¬ (logFile w = None ∧ logFilePath w = "") ∧
  (∀ h, logFile w = Some h → h < length (files w)) ∧
  fs_openable w (logFilePath w) O_RDWR_CREATE_APPEND = true ∧
  ∃ w',
    RotateFile w = Ok (None, w') ∧
    logFilePath w' = logFilePath w ∧
    logFile w' = Some (length (files w)) ∧
    files w' !! length (files w) =
      Some (mkFileState (logFilePath w) O_RDWR_CREATE_APPEND true) ∧
    std_out w' = [Stdout; FileWriter (length (files w))] ∧
    (∀ h, logFile w = Some h → is_open w' h = false) ∧
    (∀ g, g < length (files w) → logFile w ≠ Some g →
          is_open w' g = is_open w g).
Proof.
  intros w.
  assert (Hact : ¬ (logFile w = None ∧ logFilePath w = ""))
    by (intros [Hn _]; discriminate Hn).
  assert (Hwf : ∀ h, logFile w = Some h → h < length (files w))
    by (intros h [= <-]; simpl; lia).
  assert (Hfs : fs_openable w (logFilePath w) O_RDWR_CREATE_APPEND = true)
    by reflexivity.
  split; [exact Hact | ]. split; [exact Hwf | ]. split; [exact Hfs | ].
  exact (RotateFile_reopens w Hact Hwf Hfs).
Defined.

(** X9.  Failed rotation.  When a handle is open and the stored path can
    not be opened, [RotateFile] returns the error of the open wrapped as
    "error opening log file: ..."; the old handle is closed all the same,
    [logFile] is nil, no new handle exists, and the output of the logger is
    not reset: it still names the handle that has just been closed. *)
Theorem RotateFile_reopen_fails (w : World) (h : File) :
  logFile w = Some h →
  is_open w h = true →
  fs_openable w (logFilePath w) O_RDWR_CREATE_APPEND = false →
  ∃ w',
    RotateFile w =
      Ok (Some (Errorf "error opening log file: "
                  (PathError "open" (logFilePath w))), w') ∧
    logFilePath w' = logFilePath w ∧
    logFile w' = None ∧
    length (files w') = length (files w) ∧
    is_open w' h = false ∧
    std_out w' = std_out w.
Proof.
  intros Hh Hopen Hfs.
  assert (Hact : ¬ (logFile w = None ∧ logFilePath w = ""))
    by (intros [Hn _]; congruence).
  destruct (RotateFile_failed w Hact Hfs) as (w' & Hr & Hp & Hl & Ho & Hf).
  exists w'. do 3 (split; [assumption | ]).
  rewrite Hh in Hf. split; [ | split; [ | exact Ho]].
  - rewrite Hf. apply length_alter.
  - unfold is_open. rewrite Hf, list_lookup_alter_eq.
    match goal with |- context [close_state <$> ?o] => destruct o end;
      reflexivity.
Qed.

Lemma RotateFile_reopen_fails_witness :
  let w := set_std_out [Stdout; FileWriter 0]
             (set_logFile (Some 0)
                (set_files [mkFileState "/var/log/traefik.log" O_RDWR_CREATE_APPEND true]
                   (set_logFilePath "/var/log/traefik.log"
                      (init (fun _ _ => false) ∅ None true)))) in
  logFile w = Some 0 ∧ is_open w 0 = true ∧
  fs_openable w (logFilePath w) O_RDWR_CREATE_APPEND = false ∧
  ∃ w',
    RotateFile w =
      Ok (Some (Errorf "error opening log file: "
                  (PathError "open" (logFilePath w))), w') ∧
    logFilePath w' = logFilePath w ∧
    logFile w' = None ∧
    length (files w') = length (files w) ∧
    is_open w' 0 = false ∧
    std_out w' = std_out w.
Proof.
  intros w. split; [reflexivity | ]. split; [reflexivity | ].
  split; [reflexivity | ].
  apply (RotateFile_reopen_fails w 0); reflexivity.
Defined.

Lemma CloseFile_world (w : World) :
  ∃ r w',
    CloseFile w = Ok (r, w') ∧
    std_out w' = [Stdout] ∧
    logFile w' = logFile w ∧
    logFilePath w' = logFilePath w ∧
    fs_openable w' = fs_openable w ∧
    files w' =
      match logFile w with
      | Some f => alter close_state f (files w)
      | None => files w
      end ∧
    (r = None ↔ ∀ f, logFile w = Some f → is_open w f = true).
Proof.
  unfold CloseFile, logrus_SetOutput, bind, modify, get. simpl.
  destruct (logFile w) as [f | ] eqn:Hf.
  - unfold file_Close.
    change (is_open (set_std_out [Stdout] w) f) with (is_open w f).
    destruct (is_open w f) eqn:Ho.
    + eexists _, _. split; [reflexivity | ]. simpl.
      repeat (split; [first [reflexivity | assumption] | ]).
      split; [intros _ f' [= <-]; exact Ho | reflexivity].
    + eexists _, _. split; [reflexivity | ]. simpl.
      rewrite alter_close_not_open by assumption.
      repeat (split; [first [reflexivity | assumption] | ]).
      split; [discriminate | ]. intros Hall.
      specialize (Hall f eq_refl). congruence.
  - unfold ret. eexists _, _. split; [reflexivity | ]. simpl.
    repeat (split; [first [reflexivity | assumption] | ]).
    split; [discriminate | reflexivity].
Qed.

(** X10.  A failed rotation is retried by the next one.  With a non-empty
    path stored that can not be opened, [RotateFile] returns an error; once
    the path can be opened again, the next [RotateFile] returns nil and the
    logger writes to a new handle on the same path. *)
Theorem RotateFile_retries (w : World) (o : string → OpenMode → bool)
    (e : gmap string string) (hn : option string) (s : bool) :
  logFilePath w ≠ "" →
  fs_openable w (logFilePath w) O_RDWR_CREATE_APPEND = false →
  o (logFilePath w) O_RDWR_CREATE_APPEND = true →
  ∃ err w1 w2,
    RotateFile w = Ok (Some err, w1) ∧
    logFile w1 = None ∧
    RotateFile (set_outside o e hn s w1) = Ok (None, w2) ∧
    logFilePath w2 = logFilePath w ∧
    logFile w2 = Some (length (files w)) ∧
    is_open w2 (length (files w)) = true ∧
    std_out w2 = [Stdout; FileWriter (length (files w))].
Proof.
  intros Hpath Hfs Ho.
  assert (Hact : ¬ (logFile w = None ∧ logFilePath w = ""))
    by (intros [_ Hp]; contradiction).
  destruct (RotateFile_failed w Hact Hfs) as (w1 & Hr1 & Hp1 & Hl1 & _ & Hf1).
  assert (Hlen : length (files w1) = length (files w)).
  { rewrite Hf1. destruct (logFile w); [apply length_alter | reflexivity]. }
  set (w1' := set_outside o e hn s w1).
  assert (Hact' : ¬ (logFile w1' = None ∧ logFilePath w1' = "")).
  { intros [_ Hp]. simpl in Hp. congruence. }
  assert (Hfs' : fs_openable w1' (logFilePath w1') O_RDWR_CREATE_APPEND = true).
  { simpl. rewrite Hp1. exact Ho. }
  destruct (RotateFile_opened w1' Hact' Hfs')
    as (w2 & Hr2 & Hp2 & Hl2 & Ho2 & Hf2 & _).
  simpl in Hp2, Hl2, Ho2, Hf2. rewrite Hl1 in Hf2. rewrite Hlen in *.
  eexists _, w1, w2. split; [exact Hr1 | ]. split; [exact Hl1 | ].
  split; [exact Hr2 | ]. split; [congruence | ]. split; [exact Hl2 | ].
  split; [ | exact Ho2].
  unfold is_open. rewrite Hf2, <- Hlen.
  rewrite list_lookup_middle by reflexivity. reflexivity.
Qed.

Lemma RotateFile_retries_witness :
  let w := set_logFilePath "/var/log/traefik.log"
             (init (fun _ _ => false) ∅ None true) in
  logFilePath w ≠ "" ∧
  fs_openable w (logFilePath w) O_RDWR_CREATE_APPEND = false ∧
  (fun _ _ => true) (logFilePath w) O_RDWR_CREATE_APPEND = true ∧
  ∃ err w1 w2,
    RotateFile w = Ok (Some err, w1) ∧
    logFile w1 = None ∧
    RotateFile (set_outside (fun _ _ => true) ∅ None true w1) = Ok (None, w2) ∧
    logFilePath w2 = logFilePath w ∧
    logFile w2 = Some (length (files w)) ∧
    is_open w2 (length (files w)) = true ∧
    std_out w2 = [Stdout; FileWriter (length (files w))].
Proof.
  intros w.
  assert (Hp : logFilePath w ≠ "") by (simpl; discriminate).
  split; [exact Hp | ]. split; [reflexivity | ]. split; [reflexivity | ].
  exact (RotateFile_retries w (fun _ _ => true) ∅ None true Hp eq_refl eq_refl).
Defined.



(** X12.  [UploadLogs] moves the target of rotation.  It stores its path in
    the variable [OpenFile] and [RotateFile] use, also when it starts no
    upload: after [UploadLogs q] with a non-empty [q], [RotateFile] opens
    [q] (not the path of an earlier [OpenFile], and even if [OpenFile] was
    never called) and stores the new handle. *)
Theorem UploadLogs_moves_rotation (w : World) (q : string) (w1 : World) :
  UploadLogs q w = Ok (tt, w1) →
  q ≠ "" →
  fs_openable w q O_RDWR_CREATE_APPEND = true →
  ∃ w2,
    RotateFile w1 = Ok (None, w2) ∧
    logFilePath w2 = q ∧
    logFile w2 = Some (length (files w)) ∧
    io_trace w2 =
      io_trace w ++
        IoOpen q O_RDWR_CREATE_APPEND (Some (length (files w))) ::
        match logFile w with
        | Some h => [IoClose h]
        | None => []
        end.
Proof.
  intros Hu Hq Hfs.
  assert (Hw1 : logFilePath w1 = q ∧ logFile w1 = logFile w ∧
                files w1 = files w ∧ io_trace w1 = io_trace w ∧
                fs_openable w1 = fs_openable w).
  { apply UploadLogs_cases in Hu as [-> | (environment & _ & _ & ->)];
      simpl; auto. }
  destruct Hw1 as (Hp1 & Hl1 & Hf1 & Ht1 & Hfs1).
  assert (Hact : ¬ (logFile w1 = None ∧ logFilePath w1 = ""))
    by (intros [_ Hp]; congruence).
  assert (Hfs' : fs_openable w1 (logFilePath w1) O_RDWR_CREATE_APPEND = true)
    by (rewrite Hfs1, Hp1; exact Hfs).
  destruct (RotateFile_opened w1 Hact Hfs')
    as (w2 & Hr2 & Hp2 & Hl2 & _ & _ & Ht2).
  exists w2. rewrite Hp1, Hl1, Hf1, Ht1 in *. auto.
Qed.

Lemma UploadLogs_moves_rotation_witness :
  let w := set_logFile (Some 0)
             (set_files [mkFileState "/var/log/traefik.log" O_RDWR_CREATE_APPEND true]
                (set_logFilePath "/var/log/traefik.log"
                   (init (fun _ _ => true) ∅ None true))) in
  let w1 := set_console [not_uploading] (set_logFilePath "/tmp/other.log" w) in
  UploadLogs "/tmp/other.log" w = Ok (tt, w1) ∧
  "/tmp/other.log" ≠ "" ∧
  fs_openable w "/tmp/other.log" O_RDWR_CREATE_APPEND = true ∧
  ∃ w2,
    RotateFile w1 = Ok (None, w2) ∧
    logFilePath w2 = "/tmp/other.log" ∧
    logFile w2 = Some (length (files w)) ∧
    io_trace w2 =
      io_trace w ++
        IoOpen "/tmp/other.log" O_RDWR_CREATE_APPEND (Some (length (files w))) ::
        match logFile w with
        | Some h => [IoClose h]
        | None => []
        end.
Proof.
  intros w w1.
  assert (Hu : UploadLogs "/tmp/other.log" w = Ok (tt, w1)) by reflexivity.
  assert (Hq : "/tmp/other.log" ≠ "") by discriminate.
  split; [exact Hu | ]. split; [exact Hq | ]. split; [reflexivity | ].
  exact (UploadLogs_moves_rotation w "/tmp/other.log" w1 Hu Hq eq_refl).
Defined.


(** ** The upload goroutine, continued *)

(** What one tick of goroutine [i] does, by the answer of [os.Open]. *)
Lemma tick_world (i : nat) (e : option error) (t : Task) (w : World) :
  tasks w !! i = Some t →
  ∃ w',
    tick i e w = Ok (tt, w') ∧
    mainLogger w' = mainLogger w ∧ logFilePath w' = logFilePath w ∧
    logFile w' = logFile w ∧ std_out w' = std_out w ∧
    std_level w' = std_level w ∧ std_formatter w' = std_formatter w ∧
    log_calls w' = log_calls w ∧
    if fs_openable w (logFilePath w) O_RDONLY then
      files w' = files w ++ [mkFileState (logFilePath w) O_RDONLY true] ∧
      io_trace w' =
        io_trace w ++ [IoOpen (logFilePath w) O_RDONLY (Some (length (files w)))] ∧
      uploads w' =
        uploads w ++ [mkUpload (t_bucket t) (t_key t) (length (files w))] ∧
      tasks w' = alter (defer_close (length (files w))) i (tasks w) ∧
      console w' =
        console w ++ match e with Some err => [error_text err] | None => [] end
    else
      files w' = files w ∧
      io_trace w' = io_trace w ++ [IoOpen (logFilePath w) O_RDONLY None] ∧
      uploads w' = uploads w ∧
      tasks w' = tasks w ∧
      console w' =
        console w ++ [error_text (PathError "open" (logFilePath w))].
Proof.
  intros Hi. unfold tick, bind, get. simpl. rewrite Hi.
  unfold_pkg. destruct (fs_openable w (logFilePath w) O_RDONLY).
  - destruct e; eexists; (split; [reflexivity | ]); simpl;
      rewrite ?app_nil_r; auto 15.
  - eexists. split; [reflexivity | ]. simpl. auto 15.
Qed.

Lemma run_deferred_world (fs : list File) : ∀ w,
  ∃ w',
    run_deferred fs w = Ok (tt, w') ∧
    mainLogger w' = mainLogger w ∧ logFilePath w' = logFilePath w ∧
    logFile w' = logFile w ∧ std_out w' = std_out w ∧
    std_level w' = std_level w ∧ std_formatter w' = std_formatter w ∧
    log_calls w' = log_calls w.
Proof.
  induction fs as [ | f fs IH]; intros w; simpl.
  - unfold ret. eexists. split; [reflexivity | ]. auto 10.
  - unfold bind, file_Close.
    destruct (is_open w f);
      match goal with |- context [run_deferred fs ?w1] =>
        destruct (IH w1) as (w' & Hr & H1 & H2 & H3 & H4 & H5 & H6 & H7)
      end;
      exists w'; (split; [exact Hr | ]); simpl in *; auto 10.
Qed.

(** X13.  The goroutine never touches the logging state: a tick or the
    [quit] branch leaves the main logger, the stored path and handle, the
    output, level and formatter of the logger and the record of logger
    calls as they were. *)
Theorem go_step_keeps_logging_state (w w' : World) :
  go_step w w' →
  mainLogger w' = mainLogger w ∧ logFilePath w' = logFilePath w ∧
  logFile w' = logFile w ∧ std_out w' = std_out w ∧
  std_level w' = std_level w ∧ std_formatter w' = std_formatter w ∧
  log_calls w' = log_calls w.
Proof.
  intros Hstep.
  destruct Hstep as [i t e w w' Hi _ _ Ht | i t w w' Hi _ _ Hq].
  - destruct (tick_world i e t w Hi) as (w1 & Ht1 & Hkeep).
    rewrite Ht in Ht1. inversion Ht1; subst.
    destruct Hkeep as (H1 & H2 & H3 & H4 & H5 & H6 & H7 & _). auto 10.
  - unfold quit, bind, get, modify in Hq. simpl in Hq. rewrite Hi in Hq.
    match type of Hq with run_deferred ?fs ?w1 = _ =>
      destruct (run_deferred_world fs w1) as (w2 & Hr & Hkeep)
    end.
    rewrite Hq in Hr. inversion Hr; subst. exact Hkeep.
Qed.

Lemma go_step_keeps_logging_state_witness :
  let w := set_tasks
             [mkTask "voltage-prod-system" "traefik-logs/edge-1/traefik.log"
                10 false make_chan [] false]
             (set_logFilePath "/var/log/traefik.log"
                (init (fun _ _ => false) ∅ None true)) in
  let w' := set_console ["open /var/log/traefik.log"]
              (set_io_trace [IoOpen "/var/log/traefik.log" O_RDONLY None] w) in
  go_step w w' ∧
  mainLogger w' = mainLogger w ∧ logFilePath w' = logFilePath w ∧
  logFile w' = logFile w ∧ std_out w' = std_out w ∧
  std_level w' = std_level w ∧ std_formatter w' = std_formatter w ∧
  log_calls w' = log_calls w.
Proof.
  intros w w'.
  assert (Hstep : go_step w w').
  { eapply (go_tick 0 _ None); [reflexivity | reflexivity | reflexivity | ].
    reflexivity. }
  split; [exact Hstep | exact (go_step_keeps_logging_state w w' Hstep)].
Defined.

(** X14.  One tick.  A tick of a goroutine never panics and opens the path
    stored at that moment, read-only.  If the open fails, the error is
    printed and nothing else happens: no upload, no handle.  If it
    succeeds, exactly one upload to the bucket and key of the goroutine is
    made from the new handle, whose [Close] is deferred, so that the handle
    is still open after the tick; an upload error is only printed. *)
Theorem tick_effect (i : nat) (e : option error) (t : Task) (w : World) :
  tasks w !! i = Some t →
  ∃ w' res,
    tick i e w = Ok (tt, w') ∧
    io_trace w' = io_trace w ++ [IoOpen (logFilePath w) O_RDONLY res] ∧
    match res with
    | None =>
        fs_openable w (logFilePath w) O_RDONLY = false ∧
        uploads w' = uploads w ∧ files w' = files w ∧ tasks w' = tasks w ∧
        console w' = console w ++ [error_text (PathError "open" (logFilePath w))]
    | Some f =>
        fs_openable w (logFilePath w) O_RDONLY = true ∧
        f = length (files w) ∧
        uploads w' = uploads w ++ [mkUpload (t_bucket t) (t_key t) f] ∧
        is_open w' f = true ∧
        tasks w' !! i = Some (defer_close f t) ∧
        console w' =
          console w ++ match e with Some err => [error_text err] | None => [] end
    end.
Proof.
  intros Hi. destruct (tick_world i e t w Hi) as (w' & Ht & _ & _ & _ & _ & _ & _ & _ & Hcase).
  destruct (fs_openable w (logFilePath w) O_RDONLY) eqn:Hfs.
  - destruct Hcase as (Hf & Htr & Hu & Hts & Hc).
    exists w', (Some (length (files w))). split; [exact Ht | ].
    split; [exact Htr | ]. do 3 (split; [first [reflexivity | assumption] | ]).
    split; [ | split; [ | exact Hc]].
    + unfold is_open. rewrite Hf, list_lookup_middle by reflexivity. reflexivity.
    + rewrite Hts, list_lookup_alter_eq, Hi. reflexivity.
  - destruct Hcase as (Hf & Htr & Hu & Hts & Hc).
    exists w', None. auto 10.
Qed.

Lemma tick_effect_witness :
  let t := mkTask "voltage-prod-system" "traefik-logs/edge-1/traefik.log"
             10 false make_chan [] false in
  let w := set_tasks [t]
             (set_logFilePath "/var/log/traefik.log"
                (init (fun _ _ => true) ∅ None true)) in
  tasks w !! 0 = Some t ∧
  ∃ w' res,
    tick 0 (Some (OtherError "RequestError: send request failed")) w = Ok (tt, w') ∧
    io_trace w' = io_trace w ++ [IoOpen (logFilePath w) O_RDONLY res] ∧
    match res with
    | None =>
        fs_openable w (logFilePath w) O_RDONLY = false ∧
        uploads w' = uploads w ∧ files w' = files w ∧ tasks w' = tasks w ∧
        console w' = console w ++ [error_text (PathError "open" (logFilePath w))]
    | Some f =>
        fs_openable w (logFilePath w) O_RDONLY = true ∧
        f = length (files w) ∧
        uploads w' = uploads w ++ [mkUpload (t_bucket t) (t_key t) f] ∧
        is_open w' f = true ∧
        tasks w' !! 0 = Some (defer_close f t) ∧
        console w' =
          console w ++
            match Some (OtherError "RequestError: send request failed") with
            | Some err => [error_text err]
            | None => []
            end
    end.
Proof.
  intros t w. split; [reflexivity | ].
  apply (tick_effect 0 (Some (OtherError "RequestError: send request failed")) t w).
  reflexivity.
Defined.

(** X15.  The goroutine does not capture the path: a tick opens whatever
    path is stored when it fires.  After [UploadLogs p] has started the
    goroutine, an [OpenFile q] makes the next tick read (and upload) [q]. *)
Theorem upload_follows_stored_path
    (w : World) (p q : string) (w1 w2 : World) (r : option error)
    (e : option error) :
  UploadLogs p w = Ok (tt, w1) →
  tasks w1 ≠ tasks w →
  OpenFile q w1 = Ok (r, w2) →
  ∃ w3 res,
    tick (length (tasks w)) e w2 = Ok (tt, w3) ∧
    io_trace w3 = io_trace w2 ++ [IoOpen q O_RDONLY res].
Proof.
  intros Hu Hnew Ho.
  assert (Ht1 : ∃ t, tasks w1 !! length (tasks w) = Some t).
  { apply UploadLogs_cases in Hu as [-> | (environment & _ & _ & ->)].
    - simpl in Hnew. contradiction.
    - eexists. cbn [tasks set_tasks]. apply list_lookup_middle. reflexivity. }
  destruct Ht1 as [t Ht1].
  assert (Hw2 : tasks w2 = tasks w1 ∧ logFilePath w2 = q).
  { destruct (fs_openable w1 q O_RDWR_CREATE_APPEND) eqn:Hfs.
    - rewrite OpenFile_opened in Ho by assumption. inversion Ho; subst. auto.
    - rewrite OpenFile_failed in Ho by assumption. inversion Ho; subst. auto. }
  destruct Hw2 as [Ht2 Hp2]. rewrite <- Ht2 in Ht1.
  destruct (tick_world _ e t w2 Ht1)
    as (w3 & Ht & _ & _ & _ & _ & _ & _ & _ & Hcase).
  rewrite Hp2 in Hcase.
  destruct (fs_openable w2 q O_RDONLY);
    destruct Hcase as (_ & Htr & _); eauto.
Qed.

Lemma upload_follows_stored_path_witness :
  let w := init (fun _ _ => true) {[ "VOLT_ENVIRONMENT" := "prod" ]}
             (Some "edge-1") true in
  let w1 := set_tasks
              [mkTask "voltage-prod-system" "traefik-logs/edge-1/traefik.log"
                 10 false make_chan [] false]
              (set_logFilePath "/var/log/traefik.log" w) in
  let w2 := set_std_out [Stdout; FileWriter 0]
              (set_logFile (Some 0)
                 (set_io_trace [IoOpen "/tmp/other.log" O_RDWR_CREATE_APPEND (Some 0)]
                    (set_files [mkFileState "/tmp/other.log" O_RDWR_CREATE_APPEND true]
                       (set_logFilePath "/tmp/other.log" w1)))) in
  UploadLogs "/var/log/traefik.log" w = Ok (tt, w1) ∧
  tasks w1 ≠ tasks w ∧
  OpenFile "/tmp/other.log" w1 = Ok (None, w2) ∧
  ∃ w3 res,
    tick (length (tasks w)) None w2 = Ok (tt, w3) ∧
    io_trace w3 = io_trace w2 ++ [IoOpen "/tmp/other.log" O_RDONLY res].
Proof.
  intros w w1 w2.
  assert (Hu : UploadLogs "/var/log/traefik.log" w = Ok (tt, w1)) by reflexivity.
  assert (Hnew : tasks w1 ≠ tasks w) by (simpl; discriminate).
  assert (Ho : OpenFile "/tmp/other.log" w1 = Ok (None, w2)) by reflexivity.
  split; [exact Hu | ]. split; [exact Hnew | ]. split; [exact Ho | ].
  exact (upload_follows_stored_path w _ "/tmp/other.log" w1 w2 None None Hu Hnew Ho).
Defined.

(** X16.  [UploadLogs] panics exactly when it gets as far as creating the
    storage session and that fails: [VOLT_ENVIRONMENT] is set, the path is
    not empty, and no session can be created. *)
Theorem UploadLogs_panics_iff (w : World) (path : string) :
  (∃ msg, UploadLogs path w = Panic msg) ↔
  (is_Some (environ w !! "VOLT_ENVIRONMENT") ∧ path ≠ "" ∧ session_ok w = false).
Proof.
  split.
  - intros [msg Hp].
    destruct (environ w !! "VOLT_ENVIRONMENT") as [environment | ] eqn:Henv.
    + destruct (decide (path = "")) as [Hpath | Hpath].
      * rewrite UploadLogs_not_started in Hp by auto. discriminate.
      * destruct (session_ok w) eqn:Hs; [ | eauto].
        rewrite (UploadLogs_started w path environment) in Hp by assumption.
        discriminate.
    + rewrite UploadLogs_not_started in Hp by auto. discriminate.
  - intros ([environment Henv] & Hpath & Hs). exists "session.Must".
    by apply (UploadLogs_no_session w path environment).
Qed.

(** X17.  No guard against a second start: two calls of [UploadLogs] start
    two goroutines with the same destination, and a tick of each uploads
    the same file there. *)
Theorem UploadLogs_twice (w : World) (p environment : string) :
  environ w !! "VOLT_ENVIRONMENT" = Some environment →
  p ≠ "" →
  session_ok w = true →
  ∃ w1 w2 t,
    UploadLogs p w = Ok (tt, w1) ∧
    UploadLogs p w1 = Ok (tt, w2) ∧
    tasks w2 = tasks w ++ [t; t] ∧
    t_bucket t = "voltage-" +:+ environment +:+ "-system" ∧
    t_ticker_stopped t = false ∧ t_returned t = false.
Proof.
  intros Henv Hp Hs.
  pose proof (UploadLogs_started w p environment Henv Hp Hs) as H1.
  match type of H1 with _ = Ok (tt, ?x) => set (w1 := x) in * end.
  pose proof (UploadLogs_started w1 p environment Henv Hp Hs) as H2.
  eexists w1, _, _. split; [exact H1 | ]. split; [exact H2 | ].
  simpl. rewrite <- app_assoc. simpl. auto.
Qed.

Lemma UploadLogs_twice_witness :
  let w := init (fun _ _ => true) {[ "VOLT_ENVIRONMENT" := "prod" ]}
             (Some "edge-1") true in
  environ w !! "VOLT_ENVIRONMENT" = Some "prod" ∧
  "/var/log/traefik.log" ≠ "" ∧
  session_ok w = true ∧
  ∃ w1 w2 t,
    UploadLogs "/var/log/traefik.log" w = Ok (tt, w1) ∧
    UploadLogs "/var/log/traefik.log" w1 = Ok (tt, w2) ∧
    tasks w2 = tasks w ++ [t; t] ∧
    t_bucket t = "voltage-" +:+ "prod" +:+ "-system" ∧
    t_ticker_stopped t = false ∧ t_returned t = false.
Proof.
  intros w.
  assert (Henv : environ w !! "VOLT_ENVIRONMENT" = Some "prod") by reflexivity.
  assert (Hp : "/var/log/traefik.log" ≠ "") by discriminate.
  split; [exact Henv | ]. split; [exact Hp | ]. split; [reflexivity | ].
  exact (UploadLogs_twice w "/var/log/traefik.log" "prod" Henv Hp eq_refl).
Defined.




(** ** What the calls of the package leave alone *)

Ltac run_call_cases H :=
  try (apply run_call_With_world in H; subst);
  unfold_pkg; simpl in *;
  repeat (first [case_match | progress simplify_eq]; simpl in * ).

Lemma run_call_uploads (c : Call) (w w' : World) :
  run_call c w = Ok (tt, w') → uploads w' = uploads w.
Proof.
  destruct c; simpl; intros H;
    try (apply UploadLogs_cases in H as [-> | (environment & _ & _ & ->)];
         reflexivity);
    run_call_cases H; first [reflexivity | congruence].
Qed.

Lemma run_call_std_out (c : Call) (w w' : World) :
  run_call c w = Ok (tt, w') →
  std_out w' = std_out w ∨ ∃ rest, std_out w' = Stdout :: rest.
Proof.
  destruct c; simpl; intros H;
    try (apply UploadLogs_cases in H as [-> | (environment & _ & _ & ->)];
         left; reflexivity);
    run_call_cases H; eauto.
Qed.

Lemma run_call_level (c : Call) (w w' : World) :
  run_call c w = Ok (tt, w') →
  sets_level c = false → std_level w' = std_level w.
Proof.
  destruct c; simpl; intros H Hc; try discriminate;
    try (apply UploadLogs_cases in H as [-> | (environment & _ & _ & ->)];
         reflexivity);
    run_call_cases H; first [reflexivity | congruence].
Qed.

Lemma run_call_mainLogger (c : Call) (w w' : World) :
  run_call c w = Ok (tt, w') →
  sets_logger c = false → mainLogger w' = mainLogger w.
Proof.
  destruct c; simpl; intros H Hc; try discriminate;
    try (apply UploadLogs_cases in H as [-> | (environment & _ & _ & ->)];
         reflexivity);
    run_call_cases H; first [reflexivity | congruence].
Qed.

Lemma run_calls_cons (c : Call) (cs : list Call) (w w' : World) :
  run_calls (c :: cs) w = Ok (tt, w') →
  ∃ w1, run_call c w = Ok (tt, w1) ∧ run_calls cs w1 = Ok (tt, w').
Proof.
  simpl. unfold bind. destruct (run_call c w) as [[[] w1] | msg];
    [eauto | discriminate].
Qed.

(** X19.  The level is the last one given to [SetLevel]: no other function
    of the package changes it.  After [SetLevel level] and any further
    calls that are not [SetLevel], [GetLevel] returns [level]. *)
Theorem GetLevel_last_SetLevel
    (level : Level) (cs : list Call) (w w' : World) :
  forallb (fun c => negb (sets_level c)) cs = true →
  run_calls (CallSetLevel level :: cs) w = Ok (tt, w') →
  GetLevel w' = Ok (level, w').
Proof.
  intros Hcs Hrun.
  apply run_calls_cons in Hrun as (w1 & H1 & Hrest).
  simpl in H1. inversion H1; subst; clear H1.
  assert (Hkeep : ∀ cs w1 w', forallb (fun c => negb (sets_level c)) cs = true →
            run_calls cs w1 = Ok (tt, w') → std_level w' = std_level w1).
  { clear. induction cs as [ | c cs IH]; intros w1 w' Hcs Hrun.
    - simpl in Hrun. unfold ret in Hrun. by inversion Hrun.
    - simpl in Hcs. apply andb_true_iff in Hcs as [Hc Hcs].
      apply negb_true_iff in Hc.
      apply run_calls_cons in Hrun as (w2 & H1 & Hrest).
      rewrite (IH w2 w' Hcs Hrest). by apply (run_call_level c). }
  unfold GetLevel. rewrite (Hkeep cs _ w' Hcs Hrest). reflexivity.
Qed.

Lemma GetLevel_last_SetLevel_witness :
  let w := init (fun _ _ => true) ∅ None true in
  let cs := [CallOpenFile "/var/log/traefik.log"; CallRotateFile;
             CallSetLogger (mkLogger 1 ∅); CallCloseFile] in
  let w' := match run_calls (CallSetLevel DebugLevel :: cs) w with
            | Ok (_, w') => w'
            | Panic _ => w
            end in
  forallb (fun c => negb (sets_level c)) cs = true ∧
  run_calls (CallSetLevel DebugLevel :: cs) w = Ok (tt, w') ∧
  GetLevel w' = Ok (DebugLevel, w').
Proof.
  intros w cs w'.
  assert (Hcs : forallb (fun c => negb (sets_level c)) cs = true) by reflexivity.
  assert (Hrun : run_calls (CallSetLevel DebugLevel :: cs) w = Ok (tt, w'))
    by (vm_compute; reflexivity).
  split; [exact Hcs | ]. split; [exact Hrun | ].
  exact (GetLevel_last_SetLevel DebugLevel cs w w' Hcs Hrun).
Defined.

(** X20.  The main logger is the last one given to [SetLogger], and before
    any [SetLogger] the logrus standard logger: no other function of the
    package changes it.  After [SetLogger l] and any further calls that are
    not [SetLogger], [WithoutContext] and [FromContext] of the background
    context return [l]. *)
Theorem WithoutContext_last_SetLogger
    (l : Logger) (cs : list Call) (w w' : World) :
  forallb (fun c => negb (sets_logger c)) cs = true →
  run_calls (CallSetLogger l :: cs) w = Ok (tt, w') →
  WithoutContext w' = Ok (l, w') ∧
  FromContext context_Background w' = Ok (l, w').
Proof.
  intros Hcs Hrun.
  apply run_calls_cons in Hrun as (w1 & H1 & Hrest).
  simpl in H1. inversion H1; subst; clear H1.
  assert (Hkeep : ∀ cs w1 w', forallb (fun c => negb (sets_logger c)) cs = true →
            run_calls cs w1 = Ok (tt, w') → mainLogger w' = mainLogger w1).
  { clear. induction cs as [ | c cs IH]; intros w1 w' Hcs Hrun.
    - simpl in Hrun. unfold ret in Hrun. by inversion Hrun.
    - simpl in Hcs. apply andb_true_iff in Hcs as [Hc Hcs].
      apply negb_true_iff in Hc.
      apply run_calls_cons in Hrun as (w2 & H1 & Hrest).
      rewrite (IH w2 w' Hcs Hrest). by apply (run_call_mainLogger c). }
  unfold WithoutContext, FromContext, context_Background, bind, get, ret. simpl.
  rewrite (Hkeep cs _ w' Hcs Hrest). simpl. auto.
Qed.

Lemma WithoutContext_last_SetLogger_witness :
  let w := init (fun _ _ => true) ∅ None true in
  let l := mkLogger 1 {[ "app" := "traefik" ]} in
  let cs := [CallOpenFile "/var/log/traefik.log"; CallSetLevel DebugLevel;
             CallWith context_Background [Str "route" "api"]; CallRotateFile] in
  let w' := match run_calls (CallSetLogger l :: cs) w with
            | Ok (_, w') => w'
            | Panic _ => w
            end in
  forallb (fun c => negb (sets_logger c)) cs = true ∧
  run_calls (CallSetLogger l :: cs) w = Ok (tt, w') ∧
  WithoutContext w' = Ok (l, w') ∧
  FromContext context_Background w' = Ok (l, w').
Proof.
  intros w l cs w'.
  assert (Hcs : forallb (fun c => negb (sets_logger c)) cs = true) by reflexivity.
  assert (Hrun : run_calls (CallSetLogger l :: cs) w = Ok (tt, w'))
    by (vm_compute; reflexivity).
  split; [exact Hcs | ]. split; [exact Hrun | ].
  exact (WithoutContext_last_SetLogger l cs w w' Hcs Hrun).
Defined.

(** ** Invariants of the reachable states *)

Lemma step_std_out (w w' : World) :
  step w w' →
  (∃ rest, std_out w = Stdout :: rest) →
  ∃ rest, std_out w' = Stdout :: rest.
Proof.
  intros Hstep Hout.
  destruct Hstep as [w w' Hgo | c w w' Hcall | o e h s w].
  - destruct Hgo as [i t e w w' Hi _ _ Ht | i t w w' Hi _ _ Hq].
    + destruct (tick_world i e t w Hi) as (w1 & Ht1 & _ & _ & _ & Ho & _).
      rewrite Ht in Ht1. inversion Ht1; subst. by rewrite Ho.
    + unfold quit, bind, get, modify in Hq. simpl in Hq. rewrite Hi in Hq.
      match type of Hq with run_deferred ?fs ?w1 = _ =>
        destruct (run_deferred_world fs w1) as (w2 & Hr & _ & _ & _ & Ho & _)
      end.
      rewrite Hq in Hr. inversion Hr; subst. by rewrite Ho.
  - apply run_call_std_out in Hcall as [Hsame | Hnew]; [by rewrite Hsame | exact Hnew].
  - exact Hout.
Qed.

(** X21.  Standard output is never dropped: in every state the process
    can reach, whatever calls of [SetOutput], [OpenFile], [CloseFile] and
    [RotateFile] were made and whether they failed, the first destination
    of the logger is standard output. *)
Theorem stdout_always_in_output (w : World) :
  reachable w → ∃ rest, std_out w = Stdout :: rest.
Proof.
  intros (o & e & h & s & Hsteps). revert w Hsteps.
  apply (rtc_ind_r (fun w => ∃ rest, std_out w = Stdout :: rest)).
  - simpl. eauto.
  - intros w1 w2 _ Hstep IH. eapply step_std_out; eassumption.
Qed.

Lemma stdout_always_in_output_witness :
  let w0 := init (fun _ _ => false) ∅ None true in
  let w := set_logFile None
             (set_io_trace [IoOpen "/var/log/traefik.log" O_RDWR_CREATE_APPEND None]
                (set_logFilePath "/var/log/traefik.log" w0)) in
  reachable w ∧ ∃ rest, std_out w = Stdout :: rest.
Proof.
  intros w0 w.
  assert (Hr : reachable w).
  { exists (fun _ _ => false), ∅, None, true.
    apply rtc_once. apply (step_call (CallOpenFile "/var/log/traefik.log")).
    reflexivity. }
  split; [exact Hr | exact (stdout_always_in_output w Hr)].
Defined.

Lemma run_call_files_kept (c : Call) (w w' : World) :
  run_call c w = Ok (tt, w') →
  (∀ p, c ≠ CallOpenFile p) → c ≠ CallCloseFile → c ≠ CallRotateFile →
  files w' = files w ∧ logFile w' = logFile w.
Proof.
  destruct c; simpl; intros H Ho Hc Hr;
    try (exfalso; first [by apply Hc | by apply Hr | by eapply Ho]);
    clear Ho Hc Hr;
    try (apply UploadLogs_cases in H as [-> | (environment & _ & _ & ->)];
         split; reflexivity);
    run_call_cases H; split; first [reflexivity | congruence].
Qed.

(** How a call changes the table of files and the stored handle: it may
    open one file, it may close the file stored before, and the handle
    stored afterwards is the old one, nil, or the file just opened. *)
Lemma run_call_files (c : Call) (w w' : World) :
  run_call c w = Ok (tt, w') →
  ∃ base,
    (base = files w ∨ ∃ x, base = files w ++ [x]) ∧
    (files w' = base ∨
     ∃ h, logFile w = Some h ∧ files w' = alter close_state h base) ∧
    (logFile w' = logFile w ∨ logFile w' = None ∨
     (logFile w' = Some (length (files w)) ∧ length base = S (length (files w)))).
Proof.
  intros H.
  assert (Hc : (∃ p, c = CallOpenFile p) ∨ c = CallCloseFile ∨ c = CallRotateFile ∨
               ((∀ p, c ≠ CallOpenFile p) ∧ c ≠ CallCloseFile ∧ c ≠ CallRotateFile)).
  { destruct c; eauto 6; right; right; right; repeat split;
      try intros ?; discriminate. }
  destruct Hc as [[p ->] | [-> | [-> | (Hno & Hnc & Hnr)]]].
  - simpl in H. unfold bind in H.
    destruct (fs_openable w p O_RDWR_CREATE_APPEND) eqn:Hfs.
    + rewrite OpenFile_opened in H by assumption. inversion H; subst; clear H.
      eexists. split; [right; eauto | ]. split; [left; reflexivity | ].
      right. right. simpl. split; [reflexivity | ].
      rewrite length_app. simpl. lia.
    + rewrite OpenFile_failed in H by assumption. inversion H; subst; clear H.
      exists (files w). simpl. auto.
  - simpl in H. unfold bind in H.
    destruct (CloseFile_world w) as (r & w1 & Hc & _ & Hl & _ & _ & Hf & _).
    rewrite Hc in H. inversion H; subst; clear H.
    exists (files w). split; [auto | ]. split; [ | auto].
    rewrite Hf. destruct (logFile w); eauto.
  - simpl in H. unfold bind in H.
    destruct (decide (logFile w = None ∧ logFilePath w = "")) as [[Hn Hp] | Hact].
    + unfold RotateFile, FromContext, context_Background, bind, get, ret in H.
      simpl in H. rewrite Hn, Hp in H. simpl in H.
      destruct (mainLogger w); [discriminate | ].
      simpl in H. inversion H; subst; clear H.
      exists (files w). simpl. auto.
    + destruct (fs_openable w (logFilePath w) O_RDWR_CREATE_APPEND) eqn:Hfs.
      * destruct (RotateFile_opened w Hact Hfs) as (w1 & Hr & _ & Hl & _ & Hf & _).
        rewrite Hr in H. inversion H; subst; clear H.
        eexists. split; [right; eauto | ].
        split; [rewrite Hf; destruct (logFile w); eauto | ].
        right. right. split; [exact Hl | ]. rewrite length_app. simpl. lia.
      * destruct (RotateFile_failed w Hact Hfs) as (w1 & Hr & _ & Hl & _ & Hf).
        rewrite Hr in H. inversion H; subst; clear H.
        exists (files w). split; [auto | ].
        split; [rewrite Hf; destruct (logFile w); eauto | auto].
  - destruct (run_call_files_kept c w w' H Hno Hnc Hnr) as [Hf Hl].
    exists (files w). auto.
Qed.

Lemma run_call_quit (c : Call) (w w' : World) (i : nat) (t : Task) :
  run_call c w = Ok (tt, w') →
  tasks w' !! i = Some t →
  tasks w !! i = Some t ∨ t_quit t = make_chan.
Proof.
  destruct c; simpl; intros H Hi;
    try (apply UploadLogs_cases in H as [-> | (environment & _ & _ & ->)];
         simpl in Hi; [auto | ];
         apply lookup_app_Some in Hi as [Hi | [_ Hi]]; [auto | ];
         apply list_lookup_singleton_Some in Hi as [_ <-]; auto);
    left; run_call_cases H; assumption.
Qed.

Lemma handles_inv_call (c : Call) (w w' : World) :
  run_call c w = Ok (tt, w') → handles_inv w → handles_inv w'.
Proof.
  intros H (Hq & Hwf & Hup).
  destruct (run_call_files c w w' H) as (base & Hbase & Hfiles & Hlog).
  assert (Hlen : length (files w') = length base).
  { destruct Hfiles as [-> | (h & _ & ->)]; [reflexivity | apply length_alter]. }
  assert (Hge : (length (files w) ≤ length base)%nat).
  { destruct Hbase as [-> | [x ->]]; [lia | rewrite length_app; simpl; lia]. }
  split; [ | split].
  - intros i t Hi.
    destruct (run_call_quit c w w' i t H Hi) as [Hold | Hnew]; [eauto | ].
    rewrite Hnew. reflexivity.
  - intros h Hh. rewrite Hlen.
    destruct Hlog as [Hl | [Hl | [Hl Hb]]].
    + rewrite Hl in Hh. specialize (Hwf h Hh). lia.
    + congruence.
    + rewrite Hl in Hh. inversion Hh. lia.
  - intros u Hu. rewrite (run_call_uploads c w w' H) in Hu.
    destruct (Hup u Hu) as [Hopen Hne].
    pose proof (is_open_lt w _ Hopen) as Hlt.
    split.
    + assert (Hb : base !! up_body u = files w !! up_body u).
      { destruct Hbase as [-> | [x ->]]; [reflexivity | by apply lookup_app_l]. }
      assert (Hw' : files w' !! up_body u = base !! up_body u).
      { destruct Hfiles as [-> | (h & Hh & ->)]; [reflexivity | ].
        apply list_lookup_alter_ne. intros ->. by apply Hne. }
      unfold is_open, File in *. by rewrite Hw', Hb.
    + destruct Hlog as [Hl | [Hl | [Hl Hb]]].
      * by rewrite Hl.
      * by rewrite Hl.
      * rewrite Hl. intros [= Heq]. lia.
Qed.

Lemma handles_inv_step (w w' : World) :
  step w w' → handles_inv w → handles_inv w'.
Proof.
  intros Hstep Hinv.
  destruct Hstep as [w w' Hgo | c w w' Hcall | o e h s w].
  - destruct Hinv as (Hq & Hwf & Hup).
    destruct Hgo as [i t e w w' Hi _ _ Ht | i t w w' Hi _ Hready _].
    + destruct (tick_world i e t w Hi)
        as (w1 & Ht1 & _ & _ & Hl & _ & _ & _ & _ & Hcase).
      rewrite Ht in Ht1. inversion Ht1; subst w1; clear Ht1.
      destruct (fs_openable w (logFilePath w) O_RDONLY).
      * destruct Hcase as (Hf & _ & Hu & Hts & _).
        split; [ | split].
        -- intros j tj Hj. rewrite Hts in Hj.
           destruct (decide (i = j)) as [<- | Hne].
           ++ rewrite list_lookup_alter_eq, Hi in Hj. inversion Hj; subst.
              simpl. eauto.
           ++ rewrite list_lookup_alter_ne in Hj by assumption. eauto.
        -- intros h Hh. rewrite Hl in Hh. specialize (Hwf h Hh).
           rewrite Hf, length_app. simpl. lia.
        -- intros u Hu'. rewrite Hu in Hu'. rewrite Hl.
           apply elem_of_app in Hu' as [Hold | Hnew].
           ++ destruct (Hup u Hold) as [Hopen Hne]. split; [ | exact Hne].
              pose proof (is_open_lt w _ Hopen) as Hlt.
              unfold is_open in *. rewrite Hf. by rewrite lookup_app_l.
           ++ apply list_elem_of_singleton in Hnew as ->. simpl. split.
              ** unfold is_open. rewrite Hf.
                 rewrite list_lookup_middle by reflexivity. reflexivity.
              ** intros Hh. specialize (Hwf _ Hh). lia.
      * destruct Hcase as (Hf & _ & Hu & Hts & _).
        unfold handles_inv, is_open. rewrite Hf, Hu, Hts, Hl.
        split; [exact Hq | split; [exact Hwf | exact Hup]].
    + specialize (Hq i t Hi). congruence.
  - by eapply handles_inv_call.
  - exact Hinv.
Qed.

(** X22.  The files a tick opens are never closed.  In every state the
    process can reach, the file handed to [uploader.Upload] by any earlier
    tick is still open (its deferred [Close] has not run, and no other
    function of the package closes it), the stored log-file handle is none
    of these files and names a file the process opened, and no [quit]
    channel has anything to receive. *)
Theorem upload_handles_never_closed (w : World) :
  reachable w →
  (∀ u, u ∈ uploads w →
        is_open w (up_body u) = true ∧ logFile w ≠ Some (up_body u)) ∧
  (∀ h, logFile w = Some h → h < length (files w)) ∧
  (∀ i t, tasks w !! i = Some t → recv_ready (t_quit t) = false).
Proof.
  intros (o & e & h & s & Hsteps).
  assert (Hinv : handles_inv w).
  { revert w Hsteps. apply (rtc_ind_r handles_inv).
    - split; [ | split]; simpl.
      + intros i t Hi. rewrite lookup_nil in Hi. discriminate.
      + discriminate.
      + intros u Hu. by apply not_elem_of_nil in Hu.
    - intros w1 w2 _ Hstep IH. eapply handles_inv_step; eassumption. }
  destruct Hinv as (Hq & Hwf & Hup). auto.
Qed.

Lemma upload_handles_never_closed_witness :
  let w0 := init (fun _ _ => true) {[ "VOLT_ENVIRONMENT" := "prod" ]}
              (Some "edge-1") true in
  let t := mkTask "voltage-prod-system" "traefik-logs/edge-1/traefik.log"
             10 false make_chan [] false in
  let w1 := set_tasks [t] (set_logFilePath "/var/log/traefik.log" w0) in
  let w := set_uploads
             [mkUpload "voltage-prod-system" "traefik-logs/edge-1/traefik.log" 0]
             (set_tasks [defer_close 0 t]
                (set_io_trace [IoOpen "/var/log/traefik.log" O_RDONLY (Some 0)]
                   (set_files [mkFileState "/var/log/traefik.log" O_RDONLY true]
                      w1))) in
  reachable w ∧
  (∀ u, u ∈ uploads w →
        is_open w (up_body u) = true ∧ logFile w ≠ Some (up_body u)) ∧
  (∀ h, logFile w = Some h → h < length (files w)) ∧
  (∀ i t, tasks w !! i = Some t → recv_ready (t_quit t) = false).
Proof.
  intros w0 t w1 w.
  assert (Hr : reachable w).
  { exists (fun _ _ => true), {[ "VOLT_ENVIRONMENT" := "prod" ]}, (Some "edge-1"), true.
    apply (rtc_l step _ w1).
    - apply (step_call (CallUploadLogs "/var/log/traefik.log")). reflexivity.
    - apply rtc_once. apply step_go.
      apply (go_tick 0 t None); reflexivity. }
  split; [exact Hr | exact (upload_handles_never_closed w Hr)].
Defined.


(** X23.  [OpenFile] takes over the output.  A writer installed by
    [SetOutput] is dropped by a successful [OpenFile]: afterwards the logger
    writes to standard output and to the new file only.  A failed
    [OpenFile] leaves the writer of [SetOutput] in place. *)
Theorem OpenFile_replaces_output (w : World) (out : Writer) (p : string) :
  ∃ w1 r w2,
    SetOutput out w = Ok (tt, w1) ∧
    std_out w1 = [Stdout; out] ∧
    OpenFile p w1 = Ok (r, w2) ∧
    if fs_openable w p O_RDWR_CREATE_APPEND
    then r = None ∧ std_out w2 = [Stdout; FileWriter (length (files w))] ∧
         logFile w2 = Some (length (files w))
    else r ≠ None ∧ std_out w2 = [Stdout; out] ∧ logFile w2 = None.
Proof.
  destruct (fs_openable w p O_RDWR_CREATE_APPEND) eqn:Hfs;
    eexists (set_std_out [Stdout; out] w), _, _;
    (split; [reflexivity | ]); (split; [reflexivity | ]).
  - split; [apply OpenFile_opened; exact Hfs | ]. simpl. auto.
  - split; [apply OpenFile_failed; exact Hfs | ]. simpl. auto.
Qed.
